(** * PulseView signal viewport: scale/offset transform, zoom, pan and ruler

    A shallow embedding of [sigviewport.cpp].  The widget keeps a time axis
    described by [_scale] (seconds per pixel) and [_offset] (the time at the
    left edge of the plot area), changes it on wheel and drag events, and
    paints a ruler whose tick period is a multiple 1, 2 or 5 of a power of
    ten.

    Number model.  The source computes with C++ [double] and [int].  In
    [SigViewport] a [double] is an exact rational ([Q], compared with [==])
    and an [int] is an unbounded integer ([Z]): every statement about it is
    about the arithmetic the code writes down, evaluated exactly, and holds
    of the program up to the rounding of the terms involved.  Where the
    source converts between the two ([floor], [ceil], [round], the [(int)]
    cast, C's truncating [/] and [%]) the conversion is written out.

    Where rounding decides what the code does (the single-precision
    logarithm of line 190, and the ruler's loop once the offset is so large
    that a minor period is lost in it) the exact model says nothing about
    the program.  [SigViewport64] embeds the same functions in IEEE 754
    binary64, operation by operation, and the claims that rounding decides
    are settled there. *)

From Stdlib Require Import ZArith QArith Qround Qpower Lia Lqa List String Bool SpecFloat.
Import ListNotations.
Open Scope Q_scope.

(** ** The pieces of <math.h> and <algorithm> the source calls *)

Module Cxx.

(** [a < b] on doubles. *)
Definition Qltb (a b : Q) : bool := negb (Qle_bool b a).

(** [std::min(a, b)] is [(b < a) ? b : a]. *)
Definition std_min (a b : Q) : Q := if Qltb b a then b else a.

(** [std::max(a, b)] is [(a < b) ? b : a]. *)
Definition std_max (a b : Q) : Q := if Qltb a b then b else a.

(** [floor] and [ceil]; the double they return holds an integer. *)
Definition floor (q : Q) : Z := Qfloor q.
Definition ceil (q : Q) : Z := Qceiling q.

(** [round]: to the nearest integer, halfway cases away from zero. *)
Definition round (q : Q) : Z :=
  if Qle_bool 0 q then Qfloor (q + (1 # 2)) else Qceiling (q - (1 # 2)).

(** The cast [(int)d] of a double, also applied where a double is passed for
    an [int] parameter: truncation towards zero. *)
Definition to_int (q : Q) : Z :=
  if Qle_bool 0 q then Qfloor q else Qceiling q.

(** [pow(b, k)] at an integral exponent. *)
Definition pow (b : Q) (k : Z) : Q := b ^ k.

(** [floor(log10(q))] for [q > 0]: the largest [k] with [10^k <= q].  The
    search starts at [k = log2 (numerator)], where [q < 10^(k+1)] already
    holds, and walks down; it has found its [k] by the time it gets to
    [-(log2 (denominator) + 1)].  For [q <= 0], where [log10] has no finite
    value, the result is unspecified. *)
Fixpoint log10_search (fuel : nat) (q : Q) (k : Z) : Z :=
  match fuel with
  | O => k
  | S f => if Qle_bool (10 ^ k) q then k else log10_search f q (k - 1)
  end.

Definition floor_log10 (q : Q) : Z :=
  let hi := Z.log2 (Qnum q) in
  let lo := (- (Z.log2 (Zpos (Qden q)) + 1))%Z in
  log10_search (Z.to_nat (hi - lo)) q hi.

End Cxx.

(** ** The widget *)

Module SigViewport.

(** *** Constants, lines 38-50 *)

Definition MaxScale : Q := 1000000000.               (* 1e9 *)
Definition MinScale : Q := 1 # 1000000000000000.      (* 1e-15 *)

Definition SignalHeight : Z := 50.
Definition LabelMarginWidth : Z := 70.
Definition RulerHeight : Z := 30.

Definition MinorTickSubdivision : Z := 4.
Definition ScaleUnits : list Z := [1; 2; 5]%Z.

(** The fourth entry is QChar(0x03BC), the Greek letter mu, here in UTF-8. *)
Definition SIPrefixes : list string :=
  ["f"; "p"; "n"; String (Ascii.ascii_of_nat 206) (String (Ascii.ascii_of_nat 188) EmptyString);
   "m"; EmptyString; "k"; "M"; "G"]%string.
Definition FirstSIPrefixPower : Z := -15.

Definition countof {A : Type} (l : list A) : Z := Z.of_nat (List.length l).

(** Qt::LeftButton in the button mask of a mouse event. *)
Definition LeftButton : Z := 1.

(** *** State *)

(** The members the code reads and writes, and the widget's [width()]. *)
Record state : Type := mkState {
  _scale : Q;
  _offset : Q;
  _mouse_down_point : Z * Z;
  _mouse_down_offset : Q;
  width : Z
}.

Definition set_offset (v : state) (o : Q) : state :=
  mkState (_scale v) o (_mouse_down_point v) (_mouse_down_offset v) (width v).

Definition set_transform (v : state) (s o : Q) : state :=
  mkState s o (_mouse_down_point v) (_mouse_down_offset v) (width v).

(** The constructor, lines 52-63: [_scale(1e-6)], [_offset(0)].  The point is
    default-constructed; [_mouse_down_offset] has no initialiser, so its
    first value is whatever the caller's memory holds. *)
Definition SigViewport_new (w : Z) (indeterminate : Q) : state :=
  mkState (1 # 1000000) 0 (0, 0)%Z indeterminate w.

(** *** The transform *)

(** Line 248: the time under the pixel [offset] of the plot area. *)
Definition cursor_time (v : state) (offset : Z) : Q :=
  _offset v + _scale v * inject_Z offset.

(** Lines 172 and 248: the time under the widget pixel [x]; the plot area
    starts [LabelMarginWidth] pixels in. *)
Definition pixel_to_time (v : state) (x : Z) : Q :=
  cursor_time v (x - LabelMarginWidth).

(** Line 221: the widget pixel at which the time [t] is drawn. *)
Definition time_to_pixel (v : state) (t : Q) : Q :=
  (t - _offset v) / _scale v + inject_Z LabelMarginWidth.

(** *** Zoom, lines 246-253 *)

(** [steps] is a double in the source.  [wheelEvent] passes the integral
    [delta / 120], and [pow] at a fractional exponent has no rational value,
    so the model takes whole step counts. *)

Definition zoom (steps : Z) (offset : Z) (v : state) : state :=
  let cursor_offset := cursor_time v offset in
  let scale1 := _scale v * Cxx.pow (3 / 2) (- steps) in
  let scale2 := Cxx.std_max (Cxx.std_min scale1 MaxScale) MinScale in
  set_transform v scale2 (cursor_offset - scale2 * inject_Z offset).

(** Lines 65-68: zoom about the middle of the plot area. *)
Definition zoom_centre (steps : Z) (v : state) : state :=
  zoom steps (Z.quot (width v - LabelMarginWidth) 2) v.

(** *** Events, lines 145-173 *)

Definition mousePressEvent (pos : Z * Z) (v : state) : state :=
  mkState (_scale v) (_offset v) pos (_offset v) (width v).

Definition mouseMoveEvent (buttons : Z) (pos : Z * Z) (v : state) : state :=
  if negb (Z.land buttons LeftButton =? 0)%Z then
    set_offset v (_mouse_down_offset v
                  + inject_Z (fst (_mouse_down_point v) - fst pos) * _scale v)
  else v.

Definition mouseReleaseEvent (v : state) : state := v.

Definition wheelEvent (delta : Z) (x : Z) (v : state) : state :=
  zoom (Z.quot delta 120) (x - LabelMarginWidth) v.

(** Lines 74-77: Qt calls [resizeGL] with the widget's new size, which is
    what [width()] answers from then on. *)
Definition resizeGL (w : Z) (v : state) : state :=
  mkState (_scale v) (_offset v) (_mouse_down_point v) (_mouse_down_offset v) w.

Inductive event : Type :=
| MousePress (pos : Z * Z)
| MouseMove (buttons : Z) (pos : Z * Z)
| MouseRelease
| Wheel (delta : Z) (x : Z)
| ZoomCentre (steps : Z)
| Resize (w : Z).

Definition handle (v : state) (e : event) : state :=
  match e with
  | MousePress pos => mousePressEvent pos v
  | MouseMove buttons pos => mouseMoveEvent buttons pos v
  | MouseRelease => mouseReleaseEvent v
  | Wheel delta x => wheelEvent delta x v
  | ZoomCentre steps => zoom_centre steps v
  | Resize w => resizeGL w v
  end.

Definition run (v : state) (es : list event) : state := fold_left handle es v.

(** *** The ruler, lines 184-244 *)

Definition MinSpacing : Q := 80.

Definition min_period (v : state) : Q := _scale v * MinSpacing.

Definition order (v : state) : Z := Cxx.floor_log10 (min_period v).

Definition order_decimal (v : state) : Q := Cxx.pow 10 (order v).

(** Lines 193-199.  The do-while body runs with the unit [u]; it runs again
    with the next unit while the period is short of [min_period] and a next
    unit exists ([unit < countof(ScaleUnits)] after the increment). *)
Fixpoint unit_loop (order_decimal min_period : Q) (u : Z) (rest : list Z) : Q :=
  let tick_period := order_decimal * inject_Z u in
  match rest with
  | [] => tick_period
  | u' :: rest' =>
      if Cxx.Qltb tick_period min_period
      then unit_loop order_decimal min_period u' rest'
      else tick_period
  end.

Definition tick_period (v : state) : Q :=
  match ScaleUnits with
  | [] => 0
  | u :: rest => unit_loop (order_decimal v) (min_period v) u rest
  end.

(** Line 201; [/] on ints truncates towards zero. *)
Definition prefix (v : state) : Z := Z.quot (order v - FirstSIPrefixPower) 3.

Definition minor_tick_period (v : state) : Q :=
  tick_period v / inject_Z MinorTickSubdivision.

Definition first_major_division (v : state) : Z :=
  Cxx.floor (_offset v / tick_period v).

Definition first_minor_division (v : state) : Z :=
  Cxx.ceil (_offset v / minor_tick_period v).

Definition t0 (v : state) : Q := inject_Z (first_major_division v) * tick_period v.

(** Lines 216-217. *)
Definition first_division (v : state) : Z :=
  Cxx.round (inject_Z (first_minor_division v)
             - inject_Z (first_major_division v) * inject_Z MinorTickSubdivision).

(** One pass of the loop draws one tick. *)
Record tick : Type := mkTick {
  division : Z;
  t : Q;
  x : Q
}.

Definition tick_at (v : state) (d : Z) : tick :=
  let t := t0 v + inject_Z d * minor_tick_period v in
  mkTick d t (time_to_pixel v t).

(** Line 226. *)
Definition is_major (k : tick) : bool :=
  (Z.rem (division k) MinorTickSubdivision =? 0)%Z.

(** Lines 218-243.  [while(1)] has no bound of its own: the model runs it
    for at most [fuel] passes and answers [None] when they do not reach the
    [break]. *)
Fixpoint tick_loop (fuel : nat) (v : state) (d : Z) : option (list tick) :=
  match fuel with
  | O => None
  | S f =>
      let k := tick_at v d in
      if Qle_bool (inject_Z (width v)) (x k) then Some []
      else option_map (cons k) (tick_loop f v (d + 1))
  end.

(** What the painter is asked to draw. *)
Inductive draw : Type :=
| drawText (x y w h : Z) (value : Q) (si : string)
| drawLine (x1 y1 x2 y2 : Z).

(** Lines 226-240; [text_height] is measured by the painter (line 205).  The
    label is [t / order_decimal], the prefix and the letter s.  [None] is an
    index outside [SIPrefixes]. *)
Definition draw_tick (v : state) (text_height : Z) (k : tick) : option (list draw) :=
  let xi := Cxx.to_int (x k) in
  if is_major k then
    match nth_error SIPrefixes (Z.to_nat (prefix v)) with
    | Some si =>
        Some [drawText xi 0 0 text_height (t k / order_decimal v) si;
              drawLine xi text_height xi RulerHeight]
    | None => None
    end
  else Some [drawLine xi (Z.quot (text_height + RulerHeight) 2) xi RulerHeight].

Fixpoint draw_ticks (v : state) (text_height : Z) (ks : list tick) : option (list draw) :=
  match ks with
  | [] => Some []
  | k :: ks' =>
      match draw_tick v text_height k, draw_ticks v text_height ks' with
      | Some a, Some b => Some (a ++ b)
      | _, _ => None
      end
  end.

Inductive outcome : Type :=
| Painted (ds : list draw)
| AssertionFailed
| BadIndex
| OutOfFuel.

Definition paint_ruler (fuel : nat) (text_height : Z) (v : state) : outcome :=
  if negb (0 <=? prefix v)%Z then AssertionFailed
  else if negb (prefix v <? countof SIPrefixes)%Z then AssertionFailed
  else
    match tick_loop fuel v (first_division v) with
    | None => OutOfFuel
    | Some ks =>
        match draw_ticks v text_height ks with
        | Some ds => Painted ds
        | None => BadIndex
        end
    end.

(** *** Painting the widget, lines 79-138 *)

Record QRect : Type := mkRect {
  rect_x : Z;
  rect_y : Z;
  rect_w : Z;
  rect_h : Z
}.

(** What [paintEvent] asks of a signal: [paint] with a rectangle and the
    members [_scale] and [_offset], and [paint_label] with a rectangle. *)
Inductive paint_call (Sig : Type) : Type :=
| PaintSignal (s : Sig) (rect : QRect) (scale offset : Q)
| PaintLabel (s : Sig) (rect : QRect).
Arguments PaintSignal {Sig} s rect scale offset.
Arguments PaintLabel {Sig} s rect.

(** Lines 99-110.  A [shared_ptr] is a signal or null; [assert(s)] stops at
    a null one ([None] as the result).  [offset] is the local int of line 81,
    not the member [_offset]. *)
Fixpoint paint_signals {Sig : Type} (v : state) (offset : Z)
    (sigs : list (option Sig)) : option (list (paint_call Sig)) :=
  match sigs with
  | [] => Some []
  | None :: _ => None
  | Some s :: rest =>
      let signal_rect :=
        mkRect LabelMarginWidth offset (width v - LabelMarginWidth) SignalHeight in
      option_map (cons (PaintSignal s signal_rect (_scale v) (_offset v)))
                 (paint_signals v (offset + SignalHeight) rest)
  end.

(** Lines 122-132. *)
Fixpoint paint_labels {Sig : Type} (offset : Z)
    (sigs : list (option Sig)) : option (list (paint_call Sig)) :=
  match sigs with
  | [] => Some []
  | None :: _ => None
  | Some s :: rest =>
      let label_rect := mkRect 0 offset LabelMarginWidth SignalHeight in
      option_map (cons (PaintLabel s label_rect))
                 (paint_labels (offset + SignalHeight) rest)
  end.

(** The signals, then their labels, then the ruler; [None] is a failed
    [assert(s)]. *)
Definition paintEvent {Sig : Type} (fuel : nat) (text_height : Z)
    (sigs : list (option Sig)) (v : state)
  : option (list (paint_call Sig) * list (paint_call Sig) * outcome) :=
  match paint_signals v RulerHeight sigs with
  | None => None
  | Some signal_calls =>
      match paint_labels RulerHeight sigs with
      | None => None
      | Some label_calls =>
          Some (signal_calls, label_calls, paint_ruler fuel text_height v)
      end
  end.

(** *** Vocabulary of the properties *)

(** [n] consecutive division indices from [d] on. *)
Fixpoint divisions_from (d : Z) (n : nat) : list Z :=
  match n with
  | O => []
  | S n' => d :: divisions_from (d + 1) n'
  end.

(** [_scale] lies between the two bounds. *)
Definition scale_ok (v : state) : Prop :=
  MinScale <= _scale v /\ _scale v <= MaxScale.

(** A run of calls to [zoom], each with its own step count and anchor. *)
Definition zooms (v : state) (l : list (Z * Z)) : state :=
  fold_left (fun v p => zoom (fst p) (snd p) v) l v.

Definition total_steps (l : list (Z * Z)) : Z :=
  fold_right (fun p acc => (fst p + acc)%Z) 0%Z l.

(** 137 steps of 3/2 span the 24 decades between the bounds. *)
Definition span_steps : Z := 137.

(** Left to right: each tick is drawn to the right of the one before. *)
Inductive increasing_x : list tick -> Prop :=
| inc_nil : increasing_x []
| inc_one (k : tick) : increasing_x [k]
| inc_cons (a b : tick) (l : list tick) :
    x a < x b -> increasing_x (b :: l) -> increasing_x (a :: b :: l).

(** The widget as constructed, 800 pixels wide, and the same transform in a
    widget 150 pixels wide. *)
Definition fresh_view : state := SigViewport_new 800 0.

End SigViewport.

(** ** Binary floating point *)

Module Ieee754.

(** IEEE 754 binary64 ([double]) and binary32 ([float]) as the standard
    library specifies them: a [spec_float] is a zero, an infinity, a NaN or
    [(-1)^s * m * 2^e], and every operation rounds to nearest, ties to
    even. *)
Definition prec64 : Z := 53.
Definition emax64 : Z := 1024.
Definition prec32 : Z := 24.
Definition emax32 : Z := 128.

(** The rational a finite float stands for. *)
Definition to_Q (f : spec_float) : Q :=
  match f with
  | S754_finite s m e => inject_Z (if s then Zneg m else Zpos m) * 2 ^ e
  | _ => 0
  end.

(** The float nearest to a rational.  The quotient is taken with at least
    three bits more than the format keeps and a last bit that records
    whether anything was left over, so the one rounding is the right one. *)
Definition round_Q (prec emax : Z) (q : Q) : spec_float :=
  let n := Z.abs (Qnum q) in
  let d := Zpos (Qden q) in
  if (n =? 0)%Z then S754_zero false else
  let s := Z.max 0 (prec + 3 + Z.log2 d - Z.log2 n) in
  let num := (n * 2 ^ s)%Z in
  let sticky := if (num mod d =? 0)%Z then 0%Z else 1%Z in
  let m := (2 * (num / d) + sticky)%Z in
  binary_normalize prec emax (if (Qnum q <? 0)%Z then (- m)%Z else m) (- s - 1) false.

(** A decimal constant of the source text, and the conversion of an [int]. *)
Definition double (q : Q) : spec_float := round_Q prec64 emax64 q.
Definition of_int (z : Z) : spec_float := binary_normalize prec64 emax64 z 0 false.

Definition add : spec_float -> spec_float -> spec_float := SFadd prec64 emax64.
Definition sub : spec_float -> spec_float -> spec_float := SFsub prec64 emax64.
Definition mul : spec_float -> spec_float -> spec_float := SFmul prec64 emax64.
Definition div : spec_float -> spec_float -> spec_float := SFdiv prec64 emax64.
Definition ltb : spec_float -> spec_float -> bool := SFltb.
Definition leb : spec_float -> spec_float -> bool := SFleb.

(** [std::min(a, b)] is [(b < a) ? b : a]; [std::max(a, b)] is
    [(a < b) ? b : a]. *)
Definition std_min (a b : spec_float) : spec_float := if ltb b a then b else a.
Definition std_max (a b : spec_float) : spec_float := if ltb a b then b else a.

(** [floor], [ceil] and [round] of a double: the integer is taken on the
    exact value and is a double again (exactly, below 2^53; a double of
    2^53 or more is an integer already). *)
Definition integral (f : spec_float) (g : Q -> Z) : spec_float :=
  match f with
  | S754_finite s _ _ => binary_normalize prec64 emax64 (g (to_Q f)) 0 s
  | _ => f
  end.
Definition floor (f : spec_float) : spec_float := integral f Cxx.floor.
Definition ceil (f : spec_float) : spec_float := integral f Cxx.ceil.
Definition round (f : spec_float) : spec_float := integral f Cxx.round.

(** The cast [(int)d]: truncation; outside the range of a 32-bit [int], and
    for an infinity or a NaN, the behaviour is undefined ([None]). *)
Definition to_int (f : spec_float) : option Z :=
  match f with
  | S754_zero _ => Some 0%Z
  | S754_finite _ _ _ =>
      let z := Cxx.to_int (to_Q f) in
      if ((- 2 ^ 31 <=? z) && (z <? 2 ^ 31))%Z then Some z else None
  | _ => None
  end.

(** [pow(b, k)] at a whole exponent, taken to be correctly rounded. *)
Definition pow (b : Q) (k : Z) : spec_float := double (b ^ k).

(** The conversion of a double to [float], as for the argument of
    [log10f]. *)
Definition to_single (f : spec_float) : spec_float :=
  match f with
  | S754_finite s m e =>
      binary_normalize prec32 emax32 (if s then Zneg m else Zpos m) e s
  | _ => f
  end.

(** Half the distance, as the exponent [h] of [2^-h], between the integer
    [k] and the next [float] below it. *)
Definition half_ulp_below (k : Z) : Z :=
  let j := Z.log2 (Z.abs k) in
  if ((0 <? k) && (k =? 2 ^ j))%Z then (25 - j)%Z else (24 - j)%Z.

(** Does [log10f(y)] round up to the integer [k], for [10^(k-1) <= y < 10^k]?
    It does when [log10 y] is above the midpoint [k - 2^-h] of [k] and the
    [float] below it, that is when [y^(2^h) >= 10^(k * 2^h - 1)].  Nothing
    below zero rounds to zero. *)
Definition rounds_up_to (k : Z) (y : Q) : bool :=
  if (k =? 0)%Z then false
  else
    let h := half_ulp_below k in
    Qle_bool (10 ^ (k * 2 ^ h - 1)) (y ^ (2 ^ h)).

(** [floorf(log10f(y))] for a float [y > 0], with [log10f] taken to be
    correctly rounded: the decade of [y], or one more when [log10f] rounds
    up to the next integer. *)
Definition floorf_log10f (y : Q) : Z :=
  let d := Cxx.floor_log10 y in
  if rounds_up_to (d + 1) y then (d + 1)%Z else d.

End Ieee754.

(** ** The widget in binary64 *)

(** The same functions with every [double] a binary64 number and every
    operation rounded, for the places where rounding decides what the code
    does: the single-precision logarithm of line 190 and the loop of lines
    218-243.  Names and line references are those of [SigViewport]. *)

Module SigViewport64.
Import Ieee754.

(** Lines 38-46; the compiler rounds [1e-15] to the nearest double. *)
Definition MaxScale : spec_float := double 1000000000.
Definition MinScale : spec_float := double (1 # 1000000000000000).
Definition LabelMarginWidth : Z := 70.
Definition MinorTickSubdivision : Z := 4.
Definition ScaleUnits : list Z := [1; 2; 5]%Z.

Record state : Type := mkState {
  _scale : spec_float;
  _offset : spec_float;
  _mouse_down_point : Z * Z;
  _mouse_down_offset : spec_float;
  width : Z
}.

(** Lines 52-63. *)
Definition SigViewport_new (w : Z) (indeterminate : spec_float) : state :=
  mkState (double (1 # 1000000)) (S754_zero false) (0, 0)%Z indeterminate w.

(** Lines 246-253, one rounding for each [+], [-] and [*] of the source;
    whole step counts, as in [SigViewport.zoom]. *)
Definition zoom (steps : Z) (offset : Z) (v : state) : state :=
  let cursor_offset := add (_offset v) (mul (_scale v) (of_int offset)) in
  let scale1 := mul (_scale v) (pow (3 # 2) (- steps)) in
  let scale2 := std_max (std_min scale1 MaxScale) MinScale in
  mkState scale2 (sub cursor_offset (mul scale2 (of_int offset)))
          (_mouse_down_point v) (_mouse_down_offset v) (width v).

(** Lines 65-68. *)
Definition zoom_centre (steps : Z) (v : state) : state :=
  zoom steps (Z.quot (width v - LabelMarginWidth) 2) v.

(** Lines 145-173. *)
Definition mousePressEvent (pos : Z * Z) (v : state) : state :=
  mkState (_scale v) (_offset v) pos (_offset v) (width v).

Definition mouseMoveEvent (buttons : Z) (pos : Z * Z) (v : state) : state :=
  if negb (Z.land buttons SigViewport.LeftButton =? 0)%Z then
    mkState (_scale v)
            (add (_mouse_down_offset v)
                 (mul (of_int (fst (_mouse_down_point v) - fst pos)) (_scale v)))
            (_mouse_down_point v) (_mouse_down_offset v) (width v)
  else v.

Definition wheelEvent (delta : Z) (x : Z) (v : state) : state :=
  zoom (Z.quot delta 120) (x - LabelMarginWidth) v.

Definition handle (v : state) (e : SigViewport.event) : state :=
  match e with
  | SigViewport.MousePress pos => mousePressEvent pos v
  | SigViewport.MouseMove buttons pos => mouseMoveEvent buttons pos v
  | SigViewport.MouseRelease => v
  | SigViewport.Wheel delta x => wheelEvent delta x v
  | SigViewport.ZoomCentre steps => zoom_centre steps v
  | SigViewport.Resize w =>
      mkState (_scale v) (_offset v) (_mouse_down_point v) (_mouse_down_offset v) w
  end.

Definition run (v : state) (es : list SigViewport.event) : state :=
  fold_left handle es v.

(** Lines 186-188. *)
Definition min_period (v : state) : spec_float := mul (_scale v) (of_int 80).

(** Line 190, [(int)floorf(log10f(min_period))]: the double is converted to
    a float for [log10f].  For a zero, a negative number, an infinity or a
    NaN the logarithm has no finite value and the cast to int is undefined
    ([None]). *)
Definition order (v : state) : option Z :=
  match to_single (min_period v) with
  | S754_finite false m e => Some (floorf_log10f (to_Q (S754_finite false m e)))
  | _ => None
  end.

(** Line 191. *)
Definition order_decimal (o : Z) : spec_float := pow 10 o.

(** Lines 193-199, as [SigViewport.unit_loop]. *)
Fixpoint unit_loop (order_decimal min_period : spec_float) (u : Z) (rest : list Z)
  : spec_float :=
  let tick_period := mul order_decimal (of_int u) in
  match rest with
  | [] => tick_period
  | u' :: rest' =>
      if ltb tick_period min_period
      then unit_loop order_decimal min_period u' rest'
      else tick_period
  end.

Definition tick_period (o : Z) (v : state) : spec_float :=
  match ScaleUnits with
  | [] => S754_zero false
  | u :: rest => unit_loop (order_decimal o) (min_period v) u rest
  end.

(** Lines 211-217; the cast of line 216 is undefined outside the range of
    an int. *)
Definition minor_tick_period (o : Z) (v : state) : spec_float :=
  div (tick_period o v) (of_int MinorTickSubdivision).

Definition first_major_division (o : Z) (v : state) : spec_float :=
  floor (div (_offset v) (tick_period o v)).

Definition first_minor_division (o : Z) (v : state) : spec_float :=
  ceil (div (_offset v) (minor_tick_period o v)).

Definition t0 (o : Z) (v : state) : spec_float :=
  mul (first_major_division o v) (tick_period o v).

Definition first_division (o : Z) (v : state) : option Z :=
  to_int (round (sub (first_minor_division o v)
                     (mul (first_major_division o v) (of_int MinorTickSubdivision)))).

(** Lines 220-221, with the constants of lines 211-214 as computed before
    the loop. *)
Definition tick_t (t0 minor_tick_period : spec_float) (d : Z) : spec_float :=
  add t0 (mul (of_int d) minor_tick_period).

Definition tick_x (v : state) (t : spec_float) : spec_float :=
  add (div (sub t (_offset v)) (_scale v)) (of_int LabelMarginWidth).

(** How the loop of lines 218-243 ends: at its [break], with the pixel
    positions of the ticks it drew; with [division++] at [INT_MAX]; or not
    within the passes allowed. *)
Inductive passes : Type :=
| Broke (xs : list spec_float)
| IntOverflow
| StillLooping.

Fixpoint tick_loop (fuel : nat) (t0 minor_tick_period : spec_float) (v : state)
    (d : Z) : passes :=
  match fuel with
  | O => StillLooping
  | S f =>
      let x := tick_x v (tick_t t0 minor_tick_period d) in
      if leb (of_int (width v)) x then Broke []
      else if (d + 1 <? 2 ^ 31)%Z then
        match tick_loop f t0 minor_tick_period v (d + 1) with
        | Broke xs => Broke (x :: xs)
        | r => r
        end
      else IntOverflow
  end.

(** The pixel position line 221 computes for the division [d]. *)
Definition x_at (o : Z) (v : state) (d : Z) : spec_float :=
  tick_x v (tick_t (t0 o v) (minor_tick_period o v) d).

(** The widget as constructed, 800 pixels wide. *)
Definition fresh_view : state := SigViewport_new 800 (S754_zero false).

(** Zoom out to the upper clamp, drag 790 pixels to the right, zoom in to
    the lower clamp: [_scale] is 1e-15 and [_offset] 790000000000.0003662. *)
Definition far_view : state :=
  run fresh_view
      [SigViewport.ZoomCentre (-200); SigViewport.MousePress (790, 0)%Z;
       SigViewport.MouseMove 1 (0, 0)%Z; SigViewport.ZoomCentre 200].

(** The same with a drag of 4 pixels, in a widget then shrunk to no width:
    [_offset] is 4000000000.0003662. *)
Definition flat_view : state :=
  run fresh_view
      [SigViewport.ZoomCentre (-200); SigViewport.MousePress (4, 0)%Z;
       SigViewport.MouseMove 1 (0, 0)%Z; SigViewport.ZoomCentre 200;
       SigViewport.Resize 0].

(** A scale just under 1.25e-7, whose [min_period] is just under 1e-5. *)
Definition edge_view : state :=
  mkState (double (12499999 # 100000000000000)) (S754_zero false) (0, 0)%Z
          (S754_zero false) 800.

End SigViewport64.

(** * Properties *)

(** ** <math.h> *)

Module CxxFacts.
Import Cxx.

Lemma Qltb_lt (a b : Q) : Qltb a b = true <-> a < b.
Proof.
  unfold Qltb. rewrite negb_true_iff. split; intro H.
  - apply Qnot_le_lt. intro Hle. apply Qle_bool_iff in Hle. congruence.
  - apply not_true_is_false. intro Hle. apply Qle_bool_iff in Hle.
    exact (Qlt_not_le _ _ H Hle).
Qed.

Lemma Qltb_ge (a b : Q) : Qltb a b = false <-> b <= a.
Proof.
  unfold Qltb. rewrite negb_false_iff. apply Qle_bool_iff.
Qed.

Lemma Qle_bool_false (a b : Q) : Qle_bool a b = false <-> b < a.
Proof.
  rewrite <- Qltb_lt. unfold Qltb. rewrite negb_true_iff. tauto.
Qed.

Lemma pow10_pos (k : Z) : 0 < 10 ^ k.
Proof. apply Qpower_0_lt. reflexivity. Qed.

Lemma pow10_succ (k : Z) : 10 ^ (k + 1) == 10 * 10 ^ k.
Proof.
  rewrite Qpower_plus by discriminate. rewrite Qpower_1_r. ring.
Qed.

Lemma pow10_le (a b : Z) : (a <= b)%Z -> 10 ^ a <= 10 ^ b.
Proof. intro H. apply Qpower_le_compat_l; [exact H | discriminate]. Qed.

Lemma pow10_lt_inv (a b : Z) : 10 ^ a < 10 ^ b -> (a < b)%Z.
Proof. intro H. apply (Qpower_lt_compat_l_inv 10); [exact H | reflexivity]. Qed.

(** The downward search stops at the decade of [q]. *)
Lemma log10_search_spec (fuel : nat) :
  forall (q : Q) (k : Z),
    q < 10 ^ (k + 1) ->
    10 ^ (k - Z.of_nat fuel) <= q ->
    10 ^ log10_search fuel q k <= q < 10 ^ (log10_search fuel q k + 1).
Proof.
  induction fuel as [|f IH]; intros q k Hhi Hlo.
  - simpl. replace (k - Z.of_nat 0)%Z with k in Hlo by lia. split; assumption.
  - cbn [log10_search]. destruct (Qle_bool (10 ^ k) q) eqn:E.
    + apply Qle_bool_iff in E. split; assumption.
    + apply Qle_bool_false in E. apply IH.
      * replace (k - 1 + 1)%Z with k by lia. exact E.
      * replace (k - 1 - Z.of_nat f)%Z with (k - Z.of_nat (S f))%Z by lia.
        exact Hlo.
Qed.

Lemma two_pow_le_ten_pow (n : Z) : (0 <= n)%Z -> inject_Z (2 ^ n) <= 10 ^ n.
Proof.
  intro Hn. change 10 with (inject_Z 10). rewrite <- Zpower_Qpower by exact Hn.
  rewrite <- Zle_Qle. apply Z.pow_le_mono_l. lia.
Qed.

Lemma Qnum_pos (q : Q) : 0 < q -> (0 < Qnum q)%Z.
Proof. destruct q as [n d]. unfold Qlt. simpl. lia. Qed.

Lemma Q_le_num (q : Q) : 0 < q -> q <= inject_Z (Qnum q).
Proof.
  intro H. pose proof (Qnum_pos q H) as Hn. destruct q as [n d].
  unfold Qle. simpl in *. nia.
Qed.

Lemma Q_times_den (q : Q) : q * inject_Z (Zpos (Qden q)) == inject_Z (Qnum q).
Proof. destruct q as [n d]. unfold Qeq. simpl. rewrite Pos.mul_1_r. lia. Qed.

(** [floor_log10 q] is the decade of [q]: the integer part of its decimal
    logarithm. *)
Lemma floor_log10_spec (q : Q) :
  0 < q -> 10 ^ floor_log10 q <= q < 10 ^ (floor_log10 q + 1).
Proof.
  intro Hq. unfold floor_log10.
  pose proof (Qnum_pos q Hq) as Hn.
  pose proof (Z.log2_nonneg (Qnum q)) as Hhi0.
  pose proof (Z.log2_nonneg (Zpos (Qden q))) as Hlo0.
  apply log10_search_spec.
  - apply Qle_lt_trans with (inject_Z (Qnum q)); [apply Q_le_num; exact Hq|].
    apply Qlt_le_trans with (inject_Z (2 ^ (Z.log2 (Qnum q) + 1))).
    + rewrite <- Zlt_Qlt. apply (Z.log2_spec (Qnum q)) in Hn.
      unfold Z.succ in Hn. tauto.
    + apply two_pow_le_ten_pow. lia.
  - rewrite Z2Nat.id by lia.
    replace (Z.log2 (Qnum q) - (Z.log2 (Qnum q) - - (Z.log2 (Zpos (Qden q)) + 1)))%Z
      with (- (Z.log2 (Zpos (Qden q)) + 1))%Z by lia.
    rewrite Qpower_opp.
    set (P := 10 ^ (Z.log2 (Zpos (Qden q)) + 1)).
    assert (HP : 0 < P) by apply pow10_pos.
    assert (HdP : inject_Z (Zpos (Qden q)) <= P).
    { apply Qle_trans with (inject_Z (2 ^ (Z.log2 (Zpos (Qden q)) + 1))).
      - rewrite <- Zle_Qle.
        pose proof (Z.log2_spec (Zpos (Qden q)) eq_refl) as Hs.
        unfold Z.succ in Hs. lia.
      - apply two_pow_le_ten_pow. lia. }
    assert (H1 : 1 <= q * P).
    { apply Qle_trans with (q * inject_Z (Zpos (Qden q))).
      - rewrite Q_times_den. change 1 with (inject_Z 1). rewrite <- Zle_Qle. lia.
      - apply Qmult_le_l; assumption. }
    apply Qle_shift_inv_r; [exact HP | exact H1].
Qed.

(** The decade is unique, so it can be read off any bracketing of [q]. *)
Lemma floor_log10_unique (q : Q) (k : Z) :
  10 ^ k <= q -> q < 10 ^ (k + 1) -> floor_log10 q = k.
Proof.
  intros Hlo Hhi.
  assert (Hq : 0 < q) by (eapply Qlt_le_trans; [apply (pow10_pos k) | exact Hlo]).
  destruct (floor_log10_spec q Hq) as [Hlo' Hhi'].
  assert (floor_log10 q < k + 1)%Z
    by (apply pow10_lt_inv; eapply Qle_lt_trans; eassumption).
  assert (k < floor_log10 q + 1)%Z
    by (apply pow10_lt_inv; eapply Qle_lt_trans; eassumption).
  lia.
Qed.

Lemma inject_Z_minus (a b : Z) : inject_Z (a - b) = inject_Z a - inject_Z b.
Proof.
  unfold Z.sub, Qminus. rewrite inject_Z_plus, inject_Z_opp. reflexivity.
Qed.

Lemma Qfloor_half (z : Z) : Qfloor (inject_Z z + (1 # 2)) = z.
Proof.
  pose proof (Qfloor_le (inject_Z z + (1 # 2))) as H1.
  pose proof (Qlt_floor (inject_Z z + (1 # 2))) as H2.
  set (f := Qfloor (inject_Z z + (1 # 2))) in *. clearbody f.
  rewrite inject_Z_plus in H2. change (inject_Z 1) with 1 in H2.
  assert (A : inject_Z f < inject_Z (z + 1))
    by (rewrite inject_Z_plus; change (inject_Z 1) with 1; lra).
  assert (B : inject_Z (z - 1) < inject_Z f)
    by (rewrite inject_Z_minus; change (inject_Z 1) with 1; lra).
  rewrite <- Zlt_Qlt in A, B. lia.
Qed.

Lemma Qceiling_half (z : Z) : Qceiling (inject_Z z - (1 # 2)) = z.
Proof.
  pose proof (Qle_ceiling (inject_Z z - (1 # 2))) as H1.
  pose proof (Qceiling_lt (inject_Z z - (1 # 2))) as H2.
  set (f := Qceiling (inject_Z z - (1 # 2))) in *. clearbody f.
  rewrite inject_Z_minus in H2. change (inject_Z 1) with 1 in H2.
  assert (A : inject_Z f < inject_Z (z + 1))
    by (rewrite inject_Z_plus; change (inject_Z 1) with 1; lra).
  assert (B : inject_Z (z - 1) < inject_Z f)
    by (rewrite inject_Z_minus; change (inject_Z 1) with 1; lra).
  rewrite <- Zlt_Qlt in A, B. lia.
Qed.

(** [round] leaves a double that already holds an integer alone. *)
Lemma round_inject_Z (z : Z) : round (inject_Z z) = z.
Proof.
  unfold round. destruct (Qle_bool 0 (inject_Z z)).
  - apply Qfloor_half.
  - apply Qceiling_half.
Qed.

End CxxFacts.

(** ** The transform, zoom and pan *)

Module TransformFacts.
Import Cxx CxxFacts SigViewport.

Lemma bounds_ordered : MinScale <= MaxScale.
Proof. unfold MinScale, MaxScale. lra. Qed.

(** The clamp of line 250, by cases on where its argument lies. *)
Lemma clamp_spec (s : Q) :
  (s < MinScale /\ std_max (std_min s MaxScale) MinScale == MinScale)
  \/ (MinScale <= s <= MaxScale /\ std_max (std_min s MaxScale) MinScale == s)
  \/ (MaxScale < s /\ std_max (std_min s MaxScale) MinScale == MaxScale).
Proof.
  pose proof bounds_ordered as Hb.
  unfold std_min. destruct (Qltb MaxScale s) eqn:E1;
    [apply Qltb_lt in E1 | apply Qltb_ge in E1];
    unfold std_max;
    match goal with |- context [Qltb ?a ?b] => destruct (Qltb a b) eqn:E2 end;
    [apply Qltb_lt in E2 | apply Qltb_ge in E2 | apply Qltb_lt in E2 | apply Qltb_ge in E2].
  - lra.
  - right. right. split; [exact E1 | reflexivity].
  - left. split; [exact E2 | reflexivity].
  - right. left. split; [split; assumption | reflexivity].
Qed.

(** Whatever goes in, the clamp answers within the bounds. *)
Lemma clamp_in_range (s : Q) :
  MinScale <= std_max (std_min s MaxScale) MinScale
  /\ std_max (std_min s MaxScale) MinScale <= MaxScale.
Proof.
  pose proof bounds_ordered.
  destruct (clamp_spec s) as [[H1 H2] | [[H1 H2] | [H1 H2]]]; rewrite H2; split; lra.
Qed.

Lemma zoom_scale (steps offset : Z) (v : state) :
  _scale (zoom steps offset v)
  = std_max (std_min (_scale v * (3 / 2) ^ (- steps)) MaxScale) MinScale.
Proof. reflexivity. Qed.

Lemma zoom_scale_ok (steps offset : Z) (v : state) : scale_ok (zoom steps offset v).
Proof. unfold scale_ok. rewrite zoom_scale. apply clamp_in_range. Qed.

Lemma handle_scale_ok (v : state) (e : event) : scale_ok v -> scale_ok (handle v e).
Proof.
  intro H. destruct e; simpl; try exact H.
  - unfold mouseMoveEvent. destruct (negb _); exact H.
  - apply zoom_scale_ok.
  - apply zoom_scale_ok.
Qed.

Lemma run_scale_ok (es : list event) :
  forall v, scale_ok v -> scale_ok (run v es).
Proof.
  unfold run. induction es as [|e es IH]; intros v H; simpl.
  - exact H.
  - apply IH, handle_scale_ok, H.
Qed.

Lemma growth_ge_1 : 1 <= 3 / 2.
Proof. unfold Qle. simpl. lia. Qed.

Lemma growth_pos (k : Z) : 0 < (3 / 2) ^ k.
Proof. apply Qpower_0_lt. reflexivity. Qed.

Lemma growth_plus (a b : Z) : (3 / 2) ^ (a + b) == (3 / 2) ^ a * (3 / 2) ^ b.
Proof. apply Qpower_plus. discriminate. Qed.

Lemma growth_le (a b : Z) : (a <= b)%Z -> (3 / 2) ^ a <= (3 / 2) ^ b.
Proof. intro H. apply Qpower_le_compat_l; [exact H | exact growth_ge_1]. Qed.

Lemma growth_shrinks (k : Z) : (k <= 0)%Z -> (3 / 2) ^ k <= 1.
Proof. intro H. apply (growth_le k 0 H). Qed.

Lemma growth_grows (k : Z) : (0 <= k)%Z -> 1 <= (3 / 2) ^ k.
Proof. intro H. apply (growth_le 0 k H). Qed.

(** Zooming in by positive steps: the scale follows the product of the
    factors until the lower clamp catches it. *)
Lemma zooms_in_bound (l : list (Z * Z)) :
  forall v,
    scale_ok v ->
    Forall (fun p => (0 < fst p)%Z) l ->
    MinScale <= _scale (zooms v l)
    /\ (_scale (zooms v l) <= MinScale
        \/ _scale (zooms v l) <= _scale v * (3 / 2) ^ (- total_steps l)).
Proof.
  induction l as [|[st px] l IH]; intros v [Hlo Hhi] Hall.
  - simpl. split; [exact Hlo|]. right. change (_scale v <= _scale v * 1). lra.
  - inversion Hall as [|? ? Hst Hall']; subst. simpl in Hst.
    assert (Hsum : (0 <= total_steps l)%Z).
    { clear -Hall'. induction Hall' as [|[a b] l' Ha _ IH']; simpl in *; lia. }
    change (zooms v ((st, px) :: l)) with (zooms (zoom st px v) l).
    destruct (IH (zoom st px v) (zoom_scale_ok _ _ _) Hall') as [Hmin Hor].
    split; [exact Hmin|].
    change (total_steps ((st, px) :: l)) with (st + total_steps l)%Z.
    replace (- (st + total_steps l))%Z with (- st + - total_steps l)%Z by lia.
    rewrite growth_plus.
    pose proof (growth_pos (- st)) as Hf0.
    pose proof (growth_pos (- total_steps l)) as Hg0.
    assert (Hf1 : (3 / 2) ^ (- st) <= 1) by (apply growth_shrinks; lia).
    assert (Hg1 : (3 / 2) ^ (- total_steps l) <= 1) by (apply growth_shrinks; lia).
    destruct Hor as [Hle | Hle]; [left; exact Hle|].
    rewrite zoom_scale in Hle.
    set (f := (3 / 2) ^ (- st)) in *. set (g := (3 / 2) ^ (- total_steps l)) in *.
    clearbody f g.
    assert (Hmn : 0 < MinScale) by reflexivity.
    destruct (clamp_spec (_scale v * f)) as [[H1 H2] | [[H1 H2] | [H1 H2]]];
      rewrite H2 in Hle.
    + left. nra.
    + right. nra.
    + exfalso. nra.
Qed.

(** Zooming out by negative steps: the mirror image, against the upper
    clamp. *)
Lemma zooms_out_bound (l : list (Z * Z)) :
  forall v,
    scale_ok v ->
    Forall (fun p => (fst p < 0)%Z) l ->
    _scale (zooms v l) <= MaxScale
    /\ (MaxScale <= _scale (zooms v l)
        \/ _scale v * (3 / 2) ^ (- total_steps l) <= _scale (zooms v l)).
Proof.
  induction l as [|[st px] l IH]; intros v [Hlo Hhi] Hall.
  - simpl. split; [exact Hhi|]. right. change (_scale v * 1 <= _scale v). lra.
  - inversion Hall as [|? ? Hst Hall']; subst. simpl in Hst.
    assert (Hsum : (total_steps l <= 0)%Z).
    { clear -Hall'. induction Hall' as [|[a b] l' Ha _ IH']; simpl in *; lia. }
    change (zooms v ((st, px) :: l)) with (zooms (zoom st px v) l).
    destruct (IH (zoom st px v) (zoom_scale_ok _ _ _) Hall') as [Hmax Hor].
    split; [exact Hmax|].
    change (total_steps ((st, px) :: l)) with (st + total_steps l)%Z.
    replace (- (st + total_steps l))%Z with (- st + - total_steps l)%Z by lia.
    rewrite growth_plus.
    assert (Hf1 : 1 <= (3 / 2) ^ (- st)) by (apply growth_grows; lia).
    assert (Hg1 : 1 <= (3 / 2) ^ (- total_steps l)) by (apply growth_grows; lia).
    destruct Hor as [Hle | Hle]; [left; exact Hle|].
    rewrite zoom_scale in Hle.
    set (f := (3 / 2) ^ (- st)) in *. set (g := (3 / 2) ^ (- total_steps l)) in *.
    clearbody f g.
    assert (Hmn : 0 < MinScale) by reflexivity.
    assert (Hmx : MinScale <= MaxScale) by exact bounds_ordered.
    destruct (clamp_spec (_scale v * f)) as [[H1 H2] | [[H1 H2] | [H1 H2]]];
      rewrite H2 in Hle.
    + exfalso. nra.
    + right. nra.
    + left. nra.
Qed.

Lemma span_in : MaxScale * (3 / 2) ^ (- span_steps) <= MinScale.
Proof. apply Qle_bool_iff. vm_compute. reflexivity. Qed.

Lemma span_out : MaxScale <= MinScale * (3 / 2) ^ span_steps.
Proof. apply Qle_bool_iff. vm_compute. reflexivity. Qed.

End TransformFacts.

(** ** The ruler *)

Module RulerFacts.
Import Cxx CxxFacts SigViewport TransformFacts.

Lemma minor_quarter (v : state) : minor_tick_period v == tick_period v * (1 # 4).
Proof. unfold minor_tick_period, MinorTickSubdivision. field. Qed.

(** The value [round] is applied to on line 216 is an integer already. *)
Lemma first_division_eq (v : state) :
  first_division v
  = (first_minor_division v - first_major_division v * MinorTickSubdivision)%Z.
Proof.
  unfold first_division. rewrite <- inject_Z_mult, <- inject_Z_minus.
  apply round_inject_Z.
Qed.

(** Every candidate time is a whole number of minor periods. *)
Lemma tick_time (v : state) (d : Z) :
  t (tick_at v d)
  == inject_Z (first_major_division v * MinorTickSubdivision + d) * minor_tick_period v.
Proof.
  unfold tick_at, t0, minor_tick_period, MinorTickSubdivision. cbn [t].
  rewrite inject_Z_plus, inject_Z_mult. change (inject_Z 4) with 4. field.
Qed.

Lemma tick_loop_S (f : nat) (v : state) (d : Z) :
  tick_loop (S f) v d
  = if Qle_bool (inject_Z (width v)) (x (tick_at v d)) then Some []
    else option_map (cons (tick_at v d)) (tick_loop f v (d + 1)).
Proof. reflexivity. Qed.

(** The units the do-while loop can stop at, with the reason it stopped. *)
Lemma tick_period_cases (v : state) :
  (tick_period v == order_decimal v /\ min_period v <= order_decimal v)
  \/ (tick_period v == 2 * order_decimal v
      /\ order_decimal v < min_period v <= 2 * order_decimal v)
  \/ (tick_period v == 5 * order_decimal v /\ 2 * order_decimal v < min_period v).
Proof.
  unfold tick_period, ScaleUnits. cbn [unit_loop].
  change (inject_Z 1) with 1. change (inject_Z 2) with 2. change (inject_Z 5) with 5.
  destruct (Qltb (order_decimal v * 1) (min_period v)) eqn:E1;
    [apply Qltb_lt in E1 | apply Qltb_ge in E1].
  - destruct (Qltb (order_decimal v * 2) (min_period v)) eqn:E2;
      [apply Qltb_lt in E2 | apply Qltb_ge in E2].
    + right. right. split; [ring | lra].
    + right. left. split; [ring | lra].
  - left. split; [ring | lra].
Qed.

Section Positive_scale.

Variable v : state.
Hypothesis Hs : 0 < _scale v.

Lemma min_period_pos : 0 < min_period v.
Proof. unfold min_period, MinSpacing. lra. Qed.

Lemma order_decimal_pos : 0 < order_decimal v.
Proof. apply pow10_pos. Qed.

(** [order] is the decade of [min_period]. *)
Lemma order_spec :
  order_decimal v <= min_period v /\ min_period v < 10 * order_decimal v.
Proof.
  destruct (floor_log10_spec (min_period v) min_period_pos) as [H1 H2].
  fold (order v) in H1, H2. rewrite pow10_succ in H2.
  split; assumption.
Qed.

Lemma tick_period_ge_decimal : order_decimal v <= tick_period v.
Proof.
  pose proof order_decimal_pos.
  destruct (tick_period_cases v) as [[E _] | [[E _] | [E _]]]; rewrite E; lra.
Qed.

Lemma tick_period_pos : 0 < tick_period v.
Proof. pose proof order_decimal_pos. pose proof tick_period_ge_decimal. lra. Qed.

Lemma minor_tick_period_pos : 0 < minor_tick_period v.
Proof. rewrite minor_quarter. pose proof tick_period_pos. lra. Qed.

(** Minor ticks are more than two pixels apart: the decade of [min_period]
    is more than a tenth of its 80 pixels. *)
Lemma minor_wider_than_two_pixels : 2 * _scale v < minor_tick_period v.
Proof.
  rewrite minor_quarter.
  pose proof tick_period_ge_decimal. destruct order_spec as [_ H10].
  unfold min_period, MinSpacing in H10. lra.
Qed.

Lemma pixels_per_minor : 2 < minor_tick_period v / _scale v.
Proof.
  apply Qlt_shift_div_l; [exact Hs | exact minor_wider_than_two_pixels].
Qed.

(** The loop gives up after the unit 5: when [min_period] lies above five
    times its decade, the period it leaves with is too short. *)
Lemma tick_period_short :
  5 * order_decimal v < min_period v -> tick_period v < min_period v.
Proof.
  intro H5. pose proof order_decimal_pos.
  destruct (tick_period_cases v) as [[E Hc] | [[E Hc] | [E Hc]]]; rewrite E; lra.
Qed.

(** It is never shorter than half of [min_period], though. *)
Lemma tick_period_over_half : min_period v < 2 * tick_period v.
Proof.
  pose proof order_decimal_pos. destruct order_spec as [_ H10].
  destruct (tick_period_cases v) as [[E Hc] | [[E Hc] | [E Hc]]]; rewrite E; lra.
Qed.

Lemma scale_neq_0 : ~ _scale v == 0.
Proof. intro H. rewrite H in Hs. discriminate Hs. Qed.

Lemma x_step (d : Z) :
  x (tick_at v (d + 1)) == x (tick_at v d) + minor_tick_period v / _scale v.
Proof.
  unfold tick_at, time_to_pixel. cbn [x]. rewrite inject_Z_plus.
  change (inject_Z 1) with 1. field. exact scale_neq_0.
Qed.

(** The first candidate is the first minor tick at or after [_offset]. *)
Lemma first_tick_time :
  t (tick_at v (first_division v))
  == inject_Z (first_minor_division v) * minor_tick_period v.
Proof.
  rewrite tick_time, first_division_eq.
  replace (first_major_division v * MinorTickSubdivision
           + (first_minor_division v - first_major_division v * MinorTickSubdivision))%Z
    with (first_minor_division v) by lia.
  reflexivity.
Qed.

Lemma first_tick_not_before_offset : _offset v <= t (tick_at v (first_division v)).
Proof.
  rewrite first_tick_time. pose proof minor_tick_period_pos as Hm.
  pose proof (Qle_ceiling (_offset v / minor_tick_period v)) as Hc.
  fold (ceil (_offset v / minor_tick_period v)) in Hc.
  fold (first_minor_division v) in Hc.
  apply (Qmult_le_compat_r _ _ (minor_tick_period v)) in Hc; [|lra].
  assert (E : _offset v / minor_tick_period v * minor_tick_period v == _offset v)
    by (field; lra).
  rewrite E in Hc. exact Hc.
Qed.

Lemma first_tick_right_of_margin :
  inject_Z LabelMarginWidth <= x (tick_at v (first_division v)).
Proof.
  pose proof first_tick_not_before_offset as H.
  assert (H0 : 0 <= (t (tick_at v (first_division v)) - _offset v) / _scale v).
  { apply Qle_shift_div_l; [exact Hs | lra]. }
  unfold tick_at in *. cbn [x t] in *. unfold time_to_pixel. lra.
Qed.

(** The loop breaks within [n + 1] passes once the right edge is no more
    than [2 n] pixels away. *)
Lemma tick_loop_breaks (n : nat) :
  forall d,
    inject_Z (width v) - x (tick_at v d) <= 2 * inject_Z (Z.of_nat n) ->
    exists ks, tick_loop (S n) v d = Some ks.
Proof.
  induction n as [|n IH]; intros d Hd; rewrite tick_loop_S.
  - destruct (Qle_bool (inject_Z (width v)) (x (tick_at v d))) eqn:E.
    + exists []. reflexivity.
    + apply Qle_bool_false in E. change (inject_Z (Z.of_nat 0)) with 0 in Hd. lra.
  - destruct (Qle_bool (inject_Z (width v)) (x (tick_at v d))) eqn:E.
    + exists []. reflexivity.
    + destruct (IH (d + 1)%Z) as [ks Hks].
      * rewrite x_step. pose proof pixels_per_minor.
        rewrite Nat2Z.inj_succ in Hd. unfold Z.succ in Hd.
        rewrite inject_Z_plus in Hd. change (inject_Z 1) with 1 in Hd. lra.
      * exists (tick_at v d :: ks). rewrite Hks. reflexivity.
Qed.

Lemma tick_loop_enough_fuel (fuel : nat) :
  (Z.to_nat (width v) < fuel)%nat ->
  exists ks, tick_loop fuel v (first_division v) = Some ks.
Proof.
  intro Hf. destruct fuel as [|n]; [lia|].
  apply tick_loop_breaks.
  pose proof first_tick_right_of_margin as Hx.
  assert (Hw : inject_Z (width v) <= inject_Z (Z.of_nat n))
    by (rewrite <- Zle_Qle; lia).
  assert (Hn : 0 <= inject_Z (Z.of_nat n))
    by (change 0 with (inject_Z 0); rewrite <- Zle_Qle; lia).
  unfold LabelMarginWidth in Hx. change (inject_Z 70) with 70 in Hx. lra.
Qed.

Lemma tick_loop_increasing (fuel : nat) :
  forall d ks,
    tick_loop fuel v d = Some ks ->
    increasing_x ks /\ (forall k l, ks = k :: l -> k = tick_at v d).
Proof.
  induction fuel as [|f IH]; intros d ks H.
  - discriminate H.
  - rewrite tick_loop_S in H.
    destruct (Qle_bool (inject_Z (width v)) (x (tick_at v d))).
    + injection H as <-. split; [constructor | discriminate].
    + destruct (tick_loop f v (d + 1)) as [ks'|] eqn:E; [|discriminate H].
      cbn [option_map] in H. injection H as <-.
      destruct (IH _ _ E) as [Hinc Hhd]. split.
      * destruct ks' as [|b l]; constructor; [|exact Hinc].
        rewrite (Hhd b l eq_refl), x_step. pose proof pixels_per_minor. lra.
      * intros k l Hkl. injection Hkl as <- _. reflexivity.
Qed.

End Positive_scale.


(** The prefix index over the supported scales. *)
Lemma order_range (v : state) : scale_ok v -> (-14 <= order v <= 10)%Z.
Proof.
  intros [Hlo Hhi].
  assert (Hs : 0 < _scale v)
    by (eapply Qlt_le_trans; [|exact Hlo]; reflexivity).
  destruct (floor_log10_spec (min_period v) (min_period_pos v Hs)) as [H1 H2].
  fold (order v) in H1, H2.
  unfold min_period, MinSpacing, MinScale, MaxScale in *.
  assert (A : 10 ^ (-14) < 10 ^ (order v + 1)).
  { eapply Qle_lt_trans; [|exact H2].
    apply Qle_trans with ((1 # 1000000000000000) * 80).
    - apply Qle_bool_iff. vm_compute. reflexivity.
    - lra. }
  assert (B : 10 ^ order v < 10 ^ 11).
  { eapply Qle_lt_trans; [exact H1|].
    apply Qle_lt_trans with (1000000000 * 80).
    - lra.
    - reflexivity. }
  apply pow10_lt_inv in A. apply pow10_lt_inv in B. lia.
Qed.

Lemma prefix_range (v : state) : scale_ok v -> (0 <= prefix v < countof SIPrefixes)%Z.
Proof.
  intro H. apply order_range in H. unfold prefix, FirstSIPrefixPower.
  change (countof SIPrefixes) with 9%Z.
  assert (E : (order v - -15 = 3 * Z.quot (order v - -15) 3 + Z.rem (order v - -15) 3)%Z)
    by apply Z.quot_rem'.
  assert (R : (0 <= Z.rem (order v - -15) 3 < 3)%Z)
    by (apply Z.rem_bound_pos; lia).
  lia.
Qed.

Lemma draw_ticks_in_table (v : state) (text_height : Z) (ks : list tick) :
  scale_ok v -> exists ds, draw_ticks v text_height ks = Some ds.
Proof.
  intro H. apply prefix_range in H. change (countof SIPrefixes) with 9%Z in H.
  assert (Hsi : exists si, nth_error SIPrefixes (Z.to_nat (prefix v)) = Some si).
  { destruct (nth_error SIPrefixes (Z.to_nat (prefix v))) as [si|] eqn:E.
    - exists si. reflexivity.
    - apply nth_error_None in E. simpl in E. lia. }
  destruct Hsi as [si Hsi].
  induction ks as [|k ks [ds IH]]; cbn [draw_ticks].
  - exists []. reflexivity.
  - unfold draw_tick. rewrite Hsi, IH. destruct (is_major k); eexists; reflexivity.
Qed.

End RulerFacts.

(** ** Rounding *)

Module RoundingFacts.
Import CxxFacts Ieee754.

Lemma Qpower_succ (z : Q) (n : Z) : (0 <= n)%Z -> z ^ (n + 1) == z ^ n * z.
Proof.
  intro Hn. rewrite Qpower_plus' by lia. rewrite Qpower_1_r. reflexivity.
Qed.

Lemma Qpower_unit_interval (z : Q) (n : Z) :
  (0 <= n)%Z -> 0 <= z <= 1 -> 0 <= z ^ n <= 1.
Proof.
  intros Hn Hz. revert n Hn. apply natlike_ind.
  - change (z ^ 0) with 1. lra.
  - intros n Hn IH. unfold Z.succ. rewrite (Qpower_succ z n Hn).
    set (P := z ^ n) in *. clearbody P. nra.
Qed.

Lemma Qpower_base_mono (a b : Q) (n : Z) :
  (0 <= n)%Z -> 0 <= a <= b -> a ^ n <= b ^ n.
Proof.
  intros Hn Hab. revert n Hn. apply natlike_ind.
  - change (a ^ 0) with 1. change (b ^ 0) with 1. lra.
  - intros n Hn IH. unfold Z.succ.
    rewrite (Qpower_succ a n Hn), (Qpower_succ b n Hn).
    assert (Ha : 0 <= a ^ n) by (apply Qpower_0_le; lra).
    set (P := a ^ n) in *. set (R := b ^ n) in *. clearbody P R. nra.
Qed.

(** Bernoulli's inequality. *)
Lemma bernoulli (z : Q) (n : Z) :
  (0 <= n)%Z -> 0 <= z <= 1 -> 1 - inject_Z n * (1 - z) <= z ^ n.
Proof.
  intros Hn Hz. revert n Hn. apply natlike_ind.
  - change (z ^ 0) with 1. change (inject_Z 0) with 0. lra.
  - intros n Hn IH. unfold Z.succ. rewrite (Qpower_succ z n Hn).
    rewrite inject_Z_plus. change (inject_Z 1) with 1.
    assert (Hx : 0 <= inject_Z n)
      by (change 0 with (inject_Z 0); rewrite <- Zle_Qle; exact Hn).
    set (P := z ^ n) in *. set (X := inject_Z n) in *. clearbody P X.
    assert (H1 : (1 - X * (1 - z)) * z <= P * z)
      by (apply Qmult_le_compat_r; [exact IH | lra]).
    assert (H2 : 0 <= X * ((1 - z) * (1 - z)))
      by (apply Qmult_le_0_compat; [exact Hx | apply Qmult_le_0_compat; lra]).
    lra.
Qed.

(** [y^N] against [10^(k N - 1)], through [z = y * 10^(-k)] against a
    tenth. *)
Lemma scaled_power (y : Q) (k N : Z) :
  (y * 10 ^ (- k)) ^ N == y ^ N * 10 ^ (- (k * N)).
Proof.
  rewrite Qmult_power. rewrite <- Qpower_mult.
  replace (- k * N)%Z with (- (k * N))%Z by lia. reflexivity.
Qed.

Lemma decade_split (k N : Z) :
  10 ^ (k * N - 1) == 10 ^ (k * N) * (1 # 10)
  /\ 10 ^ (k * N) * 10 ^ (- (k * N)) == 1
  /\ 0 < 10 ^ (k * N) /\ 0 < 10 ^ (- (k * N)).
Proof.
  repeat split; try apply pow10_pos.
  - unfold Z.sub. rewrite Qpower_plus by discriminate. reflexivity.
  - rewrite <- Qpower_plus by discriminate.
    replace (k * N + - (k * N))%Z with 0%Z by lia. reflexivity.
Qed.

(** Just below a power of ten the logarithm rounds up to the integer. *)
Lemma rounds_up_near (k : Z) (y : Q) :
  k <> 0%Z ->
  (0 <= half_ulp_below k)%Z ->
  0 <= y * 10 ^ (- k) <= 1 ->
  inject_Z (2 ^ half_ulp_below k) * (1 - y * 10 ^ (- k)) <= 9 # 10 ->
  rounds_up_to k y = true.
Proof.
  intros Hk Hh Hz Hn. unfold rounds_up_to.
  apply Z.eqb_neq in Hk. rewrite Hk. apply Qle_bool_iff.
  set (N := (2 ^ half_ulp_below k)%Z) in *.
  assert (HN : (0 <= N)%Z) by (apply Z.pow_nonneg; lia).
  pose proof (bernoulli (y * 10 ^ (- k)) N HN Hz) as Hb.
  rewrite scaled_power in Hb.
  destruct (decade_split k N) as [E1 [E2 [B0 C0]]]. rewrite E1.
  set (z := y * 10 ^ (- k)) in *.
  set (A := y ^ N) in *. set (B := 10 ^ (k * N)) in *.
  set (C := 10 ^ (- (k * N))) in *. set (X := inject_Z N) in *.
  clearbody z A B C X.
  assert (H1 : 1 # 10 <= A * C) by lra.
  assert (H2 : (1 # 10) * B <= A * C * B) by nra.
  assert (H3 : A * C * B == A * (B * C)) by ring.
  rewrite H3, E2 in H2. lra.
Qed.

(** Away from it the logarithm stays within the decade. *)
Lemma rounds_up_far (k : Z) (y : Q) :
  (5 <= half_ulp_below k)%Z ->
  0 <= y * 10 ^ (- k) <= 9 # 10 ->
  rounds_up_to k y = false.
Proof.
  intros Hh Hz. unfold rounds_up_to.
  destruct (k =? 0)%Z; [reflexivity|]. apply Qle_bool_false.
  set (N := (2 ^ half_ulp_below k)%Z) in *.
  assert (HN : (32 <= N)%Z).
  { change 32%Z with (2 ^ 5)%Z. apply Z.pow_le_mono_r; lia. }
  assert (Hp : (y * 10 ^ (- k)) ^ N <= (9 # 10) ^ 32).
  { replace N with (32 + (N - 32))%Z by lia.
    rewrite Qpower_plus' by lia.
    pose proof (Qpower_base_mono (y * 10 ^ (- k)) (9 # 10) 32 ltac:(lia) Hz) as Hm.
    pose proof (Qpower_unit_interval (y * 10 ^ (- k)) (N - 32) ltac:(lia)
                  ltac:(lra)) as Hu.
    assert (H0 : 0 <= (y * 10 ^ (- k)) ^ 32) by (apply Qpower_0_le; lra).
    set (P := (y * 10 ^ (- k)) ^ 32) in *.
    set (R := (y * 10 ^ (- k)) ^ (N - 32)) in *.
    set (T := (9 # 10) ^ 32) in *. clearbody P R T. nra. }
  assert (Hc : (9 # 10) ^ 32 < 1 # 10) by reflexivity.
  rewrite scaled_power in Hp.
  destruct (decade_split k N) as [E1 [E2 [B0 C0]]]. rewrite E1.
  set (A := y ^ N) in *. set (B := 10 ^ (k * N)) in *.
  set (C := 10 ^ (- (k * N))) in *. set (T := (9 # 10) ^ 32) in *.
  clearbody A B C T.
  assert (H1 : A * C < 1 # 10) by lra.
  assert (H2 : A * C * B < (1 # 10) * B) by nra.
  assert (H3 : A * C * B == A * (B * C)) by ring.
  rewrite H3, E2 in H2. lra.
Qed.

End RoundingFacts.

(** ** The binary64 widget at particular states *)

Module Binary64Facts.
Import Ieee754 RoundingFacts.

(** The operations on known values: 1e-15 is 0x1.203af9ee75616p-50 and 0.1
    is 0x1.999999999999ap-4; 0.1 + 0.2 is not 0.3; 0.1 as a float is
    0x1.99999ap-4; [floor] and [ceil] of -0.5 are -1 and -0. *)
Lemma MinScale_bits :
  SigViewport64.MinScale = S754_finite false 5070602400912918 (-102).
Proof. vm_compute. reflexivity. Qed.

Lemma tenth_bits : double (1 # 10) = S754_finite false 7205759403792794 (-56).
Proof. vm_compute. reflexivity. Qed.

Lemma tenth_plus_fifth :
  add (double (1 # 10)) (double (2 # 10)) = S754_finite false 5404319552844596 (-54)
  /\ double (3 # 10) = S754_finite false 5404319552844595 (-54).
Proof. split; vm_compute; reflexivity. Qed.

Lemma tenth_single : to_single (double (1 # 10)) = S754_finite false 13421773 (-27).
Proof. vm_compute. reflexivity. Qed.

Lemma floor_ceil_half :
  floor (double (- (1 # 2))) = of_int (-1)
  /\ ceil (double (- (1 # 2))) = S754_zero true
  /\ round (double (5 # 2)) = of_int 3
  /\ to_int (double (- (7 # 2))) = Some (-3)%Z.
Proof. repeat split; vm_compute; reflexivity. Qed.

Lemma edge_view_single :
  to_single (SigViewport64.min_period SigViewport64.edge_view)
  = S754_finite false 10995115 (-40).
Proof. vm_compute. reflexivity. Qed.

(** Line 190 at [edge_view]: [min_period] as a float is 9.9999988e-6, whose
    logarithm, -5.00000005, is nearer to -5 than to the float below -5. *)
Lemma order_edge_view : SigViewport64.order SigViewport64.edge_view = Some (-5)%Z.
Proof.
  unfold SigViewport64.order. rewrite edge_view_single. cbv beta iota.
  apply (f_equal Some). unfold floorf_log10f.
  set (y := to_Q (S754_finite false 10995115 (-40))).
  replace (Cxx.floor_log10 y) with (-6)%Z by (vm_compute; reflexivity).
  rewrite (rounds_up_near (-6 + 1) y); [reflexivity | ..].
  - discriminate.
  - vm_compute. discriminate.
  - split; apply Qle_bool_iff; vm_compute; reflexivity.
  - apply Qle_bool_iff. vm_compute. reflexivity.
Qed.

(** Line 190 away from a power of ten: the decade of the float. *)
Lemma floorf_log10f_far (y : Q) (d : Z) :
  Cxx.floor_log10 y = d ->
  (5 <= half_ulp_below (d + 1))%Z ->
  0 <= y * 10 ^ (- (d + 1)) <= 9 # 10 ->
  floorf_log10f y = d.
Proof.
  intros Hd Hh Hz. unfold floorf_log10f. rewrite Hd.
  rewrite (rounds_up_far (d + 1) y Hh Hz). reflexivity.
Qed.

Ltac order_far m e d :=
  unfold SigViewport64.order;
  replace (to_single (SigViewport64.min_period _)) with (S754_finite false m e)
    by (vm_compute; reflexivity);
  cbv beta iota; apply (f_equal Some);
  apply (floorf_log10f_far _ d);
  [ vm_compute; reflexivity
  | vm_compute; discriminate
  | split; apply Qle_bool_iff; vm_compute; reflexivity ].

(** [min_period] is 8e-5 at the constructor's scale and 8e-14 at the lower
    clamp. *)
Lemma order_fresh_view : SigViewport64.order SigViewport64.fresh_view = Some (-5)%Z.
Proof. order_far 10995116%positive (-37)%Z (-5)%Z. Qed.

Lemma order_far_view : SigViewport64.order SigViewport64.far_view = Some (-14)%Z.
Proof. order_far 11805916%positive (-67)%Z (-14)%Z. Qed.

Lemma order_flat_view : SigViewport64.order SigViewport64.flat_view = Some (-14)%Z.
Proof. order_far 11805916%positive (-67)%Z (-14)%Z. Qed.

End Binary64Facts.

(** ** The loop in exact arithmetic *)

Module ExactLoop.
Import Cxx CxxFacts SigViewport TransformFacts RulerFacts.

(** In exact arithmetic a widget of no width gets no tick: the first
    candidate is at or after [_offset], so its pixel is at least 70 and the
    loop breaks on its first pass. *)
Lemma exact_no_width_no_ticks (v : state) (n : nat) :
  0 < _scale v ->
  (width v <= 0)%Z ->
  0 < tick_period v
  /\ 0 < minor_tick_period v
  /\ tick_loop (S n) v (first_division v) = Some []
  /\ (MinScale <= _scale v <= MaxScale ->
      forall text_height, paint_ruler (S n) text_height v = Painted []).
Proof.
  intros Hs Hw.
  assert (Hloop : tick_loop (S n) v (first_division v) = Some []).
  { assert (Hq : Qle_bool (inject_Z (width v)) (x (tick_at v (first_division v))) = true).
    { apply Qle_bool_iff.
      pose proof (first_tick_right_of_margin v Hs) as Hx.
      assert (Hw' : inject_Z (width v) <= 0)
        by (change 0 with (inject_Z 0); rewrite <- Zle_Qle; exact Hw).
      unfold LabelMarginWidth in Hx. change (inject_Z 70) with 70 in Hx. lra. }
    rewrite tick_loop_S, Hq. reflexivity. }
  split; [apply tick_period_pos|].
  split; [apply minor_tick_period_pos|].
  split; [exact Hloop|].
  intros Hv th. unfold paint_ruler.
  pose proof (prefix_range v Hv) as Hp.
  replace (0 <=? prefix v)%Z with true by (symmetry; apply Z.leb_le; lia).
  replace (prefix v <? countof SIPrefixes)%Z with true
    by (symmetry; apply Z.ltb_lt; lia).
  cbn [negb]. rewrite Hloop. reflexivity.
Qed.

(** In exact arithmetic the loop ends: the minor period is positive, each
    pass moves the candidate pixel to the right by more than two pixels, and
    any number of passes greater than the width reaches the [break]. *)
Lemma exact_loop_terminates (v : state) :
  MinScale <= _scale v ->
  0 < minor_tick_period v
  /\ (forall d, x (tick_at v d) < x (tick_at v (d + 1)))
  /\ forall fuel, (Z.to_nat (width v) < fuel)%nat ->
       exists ks, tick_loop fuel v (first_division v) = Some ks.
Proof.
  intro Hlo.
  assert (Hs : 0 < _scale v)
    by (eapply Qlt_le_trans; [|exact Hlo]; reflexivity).
  split; [apply minor_tick_period_pos|]. split.
  - intro d. rewrite (x_step v Hs). pose proof (pixels_per_minor v Hs). lra.
  - intros fuel Hf. apply (tick_loop_enough_fuel v Hs fuel Hf).
Qed.

End ExactLoop.

(** * The specification's claims *)

Import Cxx CxxFacts SigViewport TransformFacts RulerFacts.

(** C1. Zoom anchor invariance: the time under the anchor pixel,
    [_offset + _scale * anchor], is the same before and after
    [zoom(steps, anchor)], for every state, every anchor and every step
    count; in particular for a scale within the bounds and non-zero steps,
    and whether or not the new scale was clamped. *)
Theorem zoom_anchor_invariance (steps anchor : Z) (v : state) :
  cursor_time (zoom steps anchor v) anchor == cursor_time v anchor.
Proof.
  unfold cursor_time at 1. unfold zoom, set_transform. cbn [_offset _scale].
  ring.
Qed.

(** C2, at the constructor's own transform (one microsecond per pixel): the
    decade of [min_period = 80us] is [10us], none of the units 1, 2, 5
    reaches 80us, and the loop settles on [50us]; the major ticks are drawn
    50 pixels apart, not 80. *)
Theorem fresh_view_major_ticks_50_pixels_apart :
  order fresh_view = (-5)%Z
  /\ min_period fresh_view == 8 # 100000
  /\ tick_period fresh_view == 5 # 100000
  /\ tick_period fresh_view < min_period fresh_view
  /\ exists ks,
       tick_loop 1000 fresh_view (first_division fresh_view) = Some ks
       /\ map (fun k => Qred (x k)) (firstn 3 (filter is_major ks)) = [70; 120; 170].
Proof.
  split; [vm_compute; reflexivity|].
  split; [vm_compute; reflexivity|].
  split; [vm_compute; reflexivity|].
  split; [vm_compute; reflexivity|].
  eexists. split; vm_compute; reflexivity.
Qed.



(** C5. Scale bounds and exact clamping: from a scale within
    [MinScale, MaxScale], the scale is still within the bounds after any
    sequence of events (press, drag, release, wheel, zoom, resize); a run of
    zooms by positive steps that add up to 137 or more leaves the scale at
    exactly [MinScale], and a run by negative steps that add up to -137 or
    less leaves it at exactly [MaxScale]. *)
Theorem scale_bounds_and_clamping (v : state) :
  MinScale <= _scale v <= MaxScale ->
  (forall es, MinScale <= _scale (run v es) <= MaxScale)
  /\ (forall l, Forall (fun p => (0 < fst p)%Z) l ->
                (span_steps <= total_steps l)%Z ->
                _scale (zooms v l) == MinScale)
  /\ (forall l, Forall (fun p => (fst p < 0)%Z) l ->
                (total_steps l <= - span_steps)%Z ->
                _scale (zooms v l) == MaxScale).
Proof.
  intro Hv. split; [|split].
  - intro es. apply (run_scale_ok es v Hv).
  - intros l Hall Hsum.
    destruct (zooms_in_bound l v Hv Hall) as [Hmin [Hle | Hle]].
    + apply Qle_antisym; assumption.
    + apply Qle_antisym; [|exact Hmin].
      pose proof span_in as Hspan.
      pose proof (growth_le (- total_steps l) (- span_steps) ltac:(lia)) as Hg.
      pose proof (growth_pos (- total_steps l)) as Hg0.
      destruct Hv as [Hlo Hhi].
      assert (Hmn : 0 < MinScale) by reflexivity.
      set (g := (3 / 2) ^ (- total_steps l)) in *.
      set (g0 := (3 / 2) ^ (- span_steps)) in *. clearbody g g0.
      nra.
  - intros l Hall Hsum.
    destruct (zooms_out_bound l v Hv Hall) as [Hmax [Hle | Hle]].
    + apply Qle_antisym; assumption.
    + apply Qle_antisym; [exact Hmax|].
      pose proof span_out as Hspan.
      pose proof (growth_le span_steps (- total_steps l) ltac:(lia)) as Hg.
      pose proof (growth_pos span_steps) as Hg0.
      destruct Hv as [Hlo Hhi].
      assert (Hmn : 0 < MinScale) by reflexivity.
      set (g := (3 / 2) ^ (- total_steps l)) in *.
      set (g0 := (3 / 2) ^ span_steps) in *. clearbody g g0.
      nra.
Qed.

Lemma scale_bounds_and_clamping_witness :
  MinScale <= _scale fresh_view <= MaxScale
  /\ (forall es, MinScale <= _scale (run fresh_view es) <= MaxScale)
  /\ (forall l, Forall (fun p => (0 < fst p)%Z) l ->
                (span_steps <= total_steps l)%Z ->
                _scale (zooms fresh_view l) == MinScale)
  /\ (forall l, Forall (fun p => (fst p < 0)%Z) l ->
                (total_steps l <= - span_steps)%Z ->
                _scale (zooms fresh_view l) == MaxScale).
Proof.
  assert (H : MinScale <= _scale fresh_view <= MaxScale)
    by (split; apply Qle_bool_iff; reflexivity).
  split; [exact H | apply (scale_bounds_and_clamping fresh_view H)].
Defined.

(** C6. SI-prefix assertions: for every scale within [MinScale, MaxScale]
    the index [(order - FirstSIPrefixPower) / 3], with
    [order = floor(log10(scale * 80))], satisfies [0 <= prefix < 9]; so
    neither assertion of [paint_ruler] fails and every look-up in the
    9-entry [SIPrefixes] finds an entry. *)
Theorem si_prefix_in_table (v : state) :
  MinScale <= _scale v <= MaxScale ->
  let p := Z.quot (floor_log10 (_scale v * 80) - FirstSIPrefixPower) 3 in
  (0 <= p < 9)%Z
  /\ (exists si, nth_error SIPrefixes (Z.to_nat p) = Some si)
  /\ forall fuel text_height,
       paint_ruler fuel text_height v <> AssertionFailed
       /\ paint_ruler fuel text_height v <> BadIndex.
Proof.
  intros Hv p. change p with (prefix v).
  pose proof (prefix_range v Hv) as Hp. change (countof SIPrefixes) with 9%Z in Hp.
  split; [exact Hp|]. split.
  - destruct (nth_error SIPrefixes (Z.to_nat (prefix v))) as [si|] eqn:E.
    + exists si. reflexivity.
    + apply nth_error_None in E. simpl in E. lia.
  - intros fuel th. unfold paint_ruler.
    replace (0 <=? prefix v)%Z with true by (symmetry; apply Z.leb_le; lia).
    replace (prefix v <? countof SIPrefixes)%Z with true
      by (symmetry; apply Z.ltb_lt; change (countof SIPrefixes) with 9%Z; lia).
    cbn [negb]. destruct (tick_loop fuel v (first_division v)) as [ks|].
    + destruct (draw_ticks_in_table v th ks Hv) as [ds ->]. split; discriminate.
    + split; discriminate.
Qed.

Lemma si_prefix_in_table_witness :
  MinScale <= _scale fresh_view <= MaxScale
  /\ let p := Z.quot (floor_log10 (_scale fresh_view * 80) - FirstSIPrefixPower) 3 in
     (0 <= p < 9)%Z
     /\ (exists si, nth_error SIPrefixes (Z.to_nat p) = Some si)
     /\ forall fuel text_height,
          paint_ruler fuel text_height fresh_view <> AssertionFailed
          /\ paint_ruler fuel text_height fresh_view <> BadIndex.
Proof.
  assert (H : MinScale <= _scale fresh_view <= MaxScale)
    by (split; apply Qle_bool_iff; reflexivity).
  split; [exact H | apply (si_prefix_in_table fresh_view H)].
Defined.



(** C10. Pan preserves scale: a move event with the left button held sets
    [_offset] to [_mouse_down_offset + (press x - current x) * _scale] and
    leaves [_scale] and every other member as it was. *)
Theorem pan_changes_only_offset (v : state) (buttons : Z) (pos : Z * Z) :
  Z.land buttons LeftButton <> 0%Z ->
  _scale (mouseMoveEvent buttons pos v) = _scale v
  /\ _offset (mouseMoveEvent buttons pos v)
     = _mouse_down_offset v + inject_Z (fst (_mouse_down_point v) - fst pos) * _scale v
  /\ _mouse_down_point (mouseMoveEvent buttons pos v) = _mouse_down_point v
  /\ _mouse_down_offset (mouseMoveEvent buttons pos v) = _mouse_down_offset v
  /\ width (mouseMoveEvent buttons pos v) = width v.
Proof.
  intro Hb. unfold mouseMoveEvent.
  apply Z.eqb_neq in Hb. rewrite Hb. cbn [negb].
  repeat split.
Qed.

Lemma pan_changes_only_offset_witness :
  let v := mousePressEvent (100, 10)%Z fresh_view in
  Z.land 1 LeftButton <> 0%Z
  /\ _scale (mouseMoveEvent 1 (90, 10)%Z v) = _scale v
  /\ _offset (mouseMoveEvent 1 (90, 10)%Z v)
     = _mouse_down_offset v + inject_Z (fst (_mouse_down_point v) - fst (90, 10)%Z) * _scale v
  /\ _mouse_down_point (mouseMoveEvent 1 (90, 10)%Z v) = _mouse_down_point v
  /\ _mouse_down_offset (mouseMoveEvent 1 (90, 10)%Z v) = _mouse_down_offset v
  /\ width (mouseMoveEvent 1 (90, 10)%Z v) = width v.
Proof.
  intro v. split; [discriminate|].
  apply (pan_changes_only_offset v 1 (90, 10)%Z). discriminate.
Defined.

(** ** Claims that rounding decides *)

Module Rounded.
Import Ieee754 RoundingFacts Binary64Facts.

(** C3, as stated, fails where single precision rounds the logarithm up.
    At a scale just under 1.25e-7, [scale * 80] is just under 1e-5 and
    [floor(log10(scale * 80))] is -6, but line 190 computes -5; the period
    is the double 1e-5, which is none of 1, 2, 5 times 10^-6 and not near
    one. *)
Lemma edge_view_period_off_the_exact_decade :
  0 < to_Q (SigViewport64._scale SigViewport64.edge_view)
  /\ SigViewport64.order SigViewport64.edge_view = Some (-5)%Z
  /\ floor_log10 (to_Q (SigViewport64._scale SigViewport64.edge_view) * 80) = (-6)%Z
  /\ 9 * 10 ^ (-6) < to_Q (SigViewport64.tick_period (-5) SigViewport64.edge_view)
  /\ ~ (exists m,
          In m [1; 2; 5]%Z
          /\ to_Q (SigViewport64.tick_period (-5) SigViewport64.edge_view)
             == inject_Z m
                * 10 ^ floor_log10 (to_Q (SigViewport64._scale SigViewport64.edge_view) * 80)).
Proof.
  split; [vm_compute; reflexivity|].
  split; [exact order_edge_view|].
  split; [vm_compute; reflexivity|].
  assert (H9 : 9 * 10 ^ (-6)
               < to_Q (SigViewport64.tick_period (-5) SigViewport64.edge_view))
    by (vm_compute; reflexivity).
  split; [exact H9|].
  intros [m [Hin E]].
  replace (floor_log10 (to_Q (SigViewport64._scale SigViewport64.edge_view) * 80))
    with (-6)%Z in E by (vm_compute; reflexivity).
  rewrite E in H9. cbn [In] in Hin.
  destruct Hin as [<- | [<- | [<- | []]]]; vm_compute in H9; discriminate H9.
Qed.

(** C3, amended.  Tick multiplier set: wherever line 190 has a value, the
    major tick period is the double product [pow(10, order) * m] with [m]
    one of 1, 2, 5, where [order] is the int line 190 computes in single
    precision, [(int)floorf(log10f(scale * 80))]: the decade of [scale * 80]
    as a float, or one more than it when [log10f] rounds up to the next
    integer. *)
Theorem tick_period_multiplier_set_line_190 (v : SigViewport64.state) (o : Z) :
  SigViewport64.order v = Some o ->
  (o = floor_log10 (to_Q (to_single (SigViewport64.min_period v)))
   \/ o = (floor_log10 (to_Q (to_single (SigViewport64.min_period v))) + 1)%Z)
  /\ exists m,
       In m [1; 2; 5]%Z
       /\ SigViewport64.tick_period o v = mul (pow 10 o) (of_int m).
Proof.
  intro Ho. split.
  - unfold SigViewport64.order in Ho.
    destruct (to_single (SigViewport64.min_period v)) as [s|s| |s m e];
      try discriminate Ho.
    destruct s; [discriminate Ho|].
    apply (f_equal (fun x => match x with Some z => z | None => o end)) in Ho.
    cbv beta iota in Ho. rewrite <- Ho. unfold floorf_log10f.
    destruct (rounds_up_to _ _); [right | left]; reflexivity.
  - unfold SigViewport64.tick_period, SigViewport64.ScaleUnits.
    cbn [SigViewport64.unit_loop]. fold (SigViewport64.order_decimal o).
    unfold SigViewport64.order_decimal.
    destruct (ltb _ _).
    + destruct (ltb _ _).
      * exists 5%Z. split; [simpl; tauto | reflexivity].
      * exists 2%Z. split; [simpl; tauto | reflexivity].
    + exists 1%Z. split; [simpl; tauto | reflexivity].
Qed.

Lemma tick_period_multiplier_set_line_190_witness :
  SigViewport64.order SigViewport64.fresh_view = Some (-5)%Z
  /\ ((-5)%Z = floor_log10 (to_Q (to_single (SigViewport64.min_period SigViewport64.fresh_view)))
      \/ (-5)%Z
         = (floor_log10 (to_Q (to_single (SigViewport64.min_period SigViewport64.fresh_view)))
            + 1)%Z)
  /\ exists m,
       In m [1; 2; 5]%Z
       /\ SigViewport64.tick_period (-5) SigViewport64.fresh_view
          = mul (pow 10 (-5)) (of_int m).
Proof.
  split; [exact order_fresh_view|].
  apply (tick_period_multiplier_set_line_190 SigViewport64.fresh_view (-5)
           order_fresh_view).
Defined.

(** C7, in binary64, at a state the events reach (zoom out to the upper
    clamp, drag 4 pixels, zoom in to the lower clamp, shrink the widget to
    no width).  [_offset] is 4000000000.0003662 and [t0] rounds to the
    double below it, so the first candidate's pixel is about -476837088,
    left of a right edge at 0: the loop does not break on its first pass nor
    within 2000 passes, and the pixel is still negative at division
    19073486.  The claim's zero ticks hold in exact arithmetic only
    ([ExactLoop.exact_no_width_no_ticks]). *)
Theorem flat_view_draws_ticks_with_no_width :
  SigViewport64._scale SigViewport64.flat_view = SigViewport64.MinScale
  /\ to_Q (SigViewport64._offset SigViewport64.flat_view) == 8388608000000768 # 2097152
  /\ SigViewport64.width SigViewport64.flat_view = 0%Z
  /\ SigViewport64.order SigViewport64.flat_view = Some (-14)%Z
  /\ SigViewport64.first_division (-14) SigViewport64.flat_view = Some 0%Z
  /\ to_Q (SigViewport64.t0 (-14) SigViewport64.flat_view) == 8388608000000767 # 2097152
  /\ to_Q (SigViewport64.x_at (-14) SigViewport64.flat_view 0) < - (476837088)
  /\ SigViewport64.tick_loop 2000
       (SigViewport64.t0 (-14) SigViewport64.flat_view)
       (SigViewport64.minor_tick_period (-14) SigViewport64.flat_view)
       SigViewport64.flat_view 0
     = SigViewport64.StillLooping
  /\ to_Q (SigViewport64.x_at (-14) SigViewport64.flat_view 19073486) < - (476837088)
  /\ SigViewport64.x_at (-14) SigViewport64.flat_view 19073487 = of_int 70.
Proof.
  split; [vm_compute; reflexivity|].
  split; [vm_compute; reflexivity|].
  split; [vm_compute; reflexivity|].
  split; [exact order_flat_view|].
  repeat split; vm_compute; reflexivity.
Qed.

(** C8, in binary64, at a state the events reach (zoom out to the upper
    clamp, drag 790 pixels, zoom in to the lower clamp).  [_scale] is
    [MinScale], [_offset] is 790000000000.0003662, and the minor period
    1.25e-14 times any int is less than half the spacing of doubles at
    [t0]: the candidate pixel is 70 at divisions 0, 1, 1000 and [INT_MAX],
    short of the right edge at 800, and the loop has not reached its
    [break] after 2000 passes.  Termination holds in exact arithmetic only
    ([ExactLoop.exact_loop_terminates]). *)
Theorem far_view_loop_never_breaks :
  SigViewport64._scale SigViewport64.far_view = SigViewport64.MinScale
  /\ to_Q (SigViewport64._offset SigViewport64.far_view) == 6471680000000003 # 8192
  /\ SigViewport64.width SigViewport64.far_view = 800%Z
  /\ SigViewport64.order SigViewport64.far_view = Some (-14)%Z
  /\ SigViewport64.first_division (-14) SigViewport64.far_view = Some 0%Z
  /\ SigViewport64.x_at (-14) SigViewport64.far_view 0 = of_int 70
  /\ SigViewport64.x_at (-14) SigViewport64.far_view 1 = of_int 70
  /\ SigViewport64.x_at (-14) SigViewport64.far_view 1000 = of_int 70
  /\ SigViewport64.x_at (-14) SigViewport64.far_view (2 ^ 31 - 1) = of_int 70
  /\ SigViewport64.tick_loop 2000
       (SigViewport64.t0 (-14) SigViewport64.far_view)
       (SigViewport64.minor_tick_period (-14) SigViewport64.far_view)
       SigViewport64.far_view 0
     = SigViewport64.StillLooping.
Proof.
  split; [vm_compute; reflexivity|].
  split; [vm_compute; reflexivity|].
  split; [vm_compute; reflexivity|].
  split; [exact order_far_view|].
  repeat split; vm_compute; reflexivity.
Qed.

End Rounded.

(** * Further properties of the code *)

(** ** Wheel, zoom and drag *)

Module ZoomPan.

Lemma anchor_time_kept (steps anchor : Z) (v : state) :
  cursor_time (zoom steps anchor v) anchor == cursor_time v anchor.
Proof.
  unfold cursor_time at 1. unfold zoom, set_transform. cbn [_offset _scale]. ring.
Qed.

(** The clamp does not tell equal rationals apart. *)
Lemma clamp_proper (a b : Q) :
  a == b ->
  std_max (std_min a MaxScale) MinScale == std_max (std_min b MaxScale) MinScale.
Proof.
  intro E. pose proof bounds_ordered as Hb.
  destruct (clamp_spec a) as [[A1 A2] | [[A1 A2] | [A1 A2]]];
    destruct (clamp_spec b) as [[B1 B2] | [[B1 B2] | [B1 B2]]];
    rewrite A2, B2; lra.
Qed.


(** Two clamped multiplications in the same direction are one. *)
Lemma clamp_twice (s f g : Q) :
  MinScale <= s <= MaxScale ->
  (0 < f <= 1 /\ 0 < g <= 1) \/ (1 <= f /\ 1 <= g) ->
  std_max (std_min (std_max (std_min (s * f) MaxScale) MinScale * g) MaxScale) MinScale
  == std_max (std_min (s * (f * g)) MaxScale) MinScale.
Proof.
  intros [Hlo Hhi] Hdir.
  assert (Hmn : 0 < MinScale) by reflexivity.
  pose proof bounds_ordered as Hb.
  destruct (clamp_spec (s * f)) as [[A1 A2] | [[A1 A2] | [A1 A2]]].
  - (* caught by the lower bound: only when zooming in *)
    destruct Hdir as [[[Hf0 Hf1] [Hg0 Hg1]] | [Hf1 Hg1]]; [|exfalso; nra].
    rewrite (clamp_proper _ _ (Qmult_comp _ _ A2 g g (Qeq_refl g))).
    destruct (clamp_spec (MinScale * g)) as [[B1 B2] | [[B1 B2] | [B1 B2]]];
      destruct (clamp_spec (s * (f * g))) as [[C1 C2] | [[C1 C2] | [C1 C2]]];
      rewrite B2, C2; nra.
  - rewrite (clamp_proper _ _ (Qmult_comp _ _ A2 g g (Qeq_refl g))).
    apply clamp_proper. ring.
  - (* caught by the upper bound: only when zooming out *)
    destruct Hdir as [[[Hf0 Hf1] [Hg0 Hg1]] | [Hf1 Hg1]]; [exfalso; nra|].
    rewrite (clamp_proper _ _ (Qmult_comp _ _ A2 g g (Qeq_refl g))).
    destruct (clamp_spec (MaxScale * g)) as [[B1 B2] | [[B1 B2] | [B1 B2]]];
      destruct (clamp_spec (s * (f * g))) as [[C1 C2] | [[C1 C2] | [C1 C2]]];
      rewrite B2, C2; nra.
Qed.

Lemma offsets_agree (v w1 w2 : state) (anchor : Z) :
  cursor_time w1 anchor == cursor_time v anchor ->
  cursor_time w2 anchor == cursor_time v anchor ->
  _scale w1 == _scale w2 ->
  _offset w1 == _offset w2.
Proof.
  unfold cursor_time. intros H1 H2 Hs. rewrite Hs in H1.
  set (p := inject_Z anchor) in *. clearbody p.
  set (s := _scale w2) in *. clearbody s.
  assert (E : s * p == s * p) by reflexivity.
  lra.
Qed.




(** X2. The wheel zooms about the pointer and [zoom(steps)] about the middle
    of the plot area: the time under the pointer's pixel, and the time under
    the pixel [(width - LabelMarginWidth) / 2] of the plot area, are the
    same after the call as before. *)
Theorem callers_zoom_about_their_pixel (v : state) (delta x steps : Z) :
  pixel_to_time (wheelEvent delta x v) x == pixel_to_time v x
  /\ cursor_time (zoom_centre steps v) (Z.quot (width v - LabelMarginWidth) 2)
     == cursor_time v (Z.quot (width v - LabelMarginWidth) 2).
Proof.
  split.
  - unfold pixel_to_time, wheelEvent. apply anchor_time_kept.
  - unfold zoom_centre. apply anchor_time_kept.
Qed.

(** X3. Zooms in the same direction add up: with the scale within its
    bounds and the same anchor, [zoom(a)] followed by [zoom(b)] gives the
    scale and offset of [zoom(a + b)] when [a] and [b] have the same sign,
    also when a clamp cuts in. *)
Theorem zoom_same_direction_composes (v : state) (a b anchor : Z) :
  MinScale <= _scale v <= MaxScale ->
  (0 <= a /\ 0 <= b)%Z \/ (a <= 0 /\ b <= 0)%Z ->
  _scale (zoom b anchor (zoom a anchor v)) == _scale (zoom (a + b) anchor v)
  /\ _offset (zoom b anchor (zoom a anchor v)) == _offset (zoom (a + b) anchor v).
Proof.
  intros Hv Hdir.
  assert (Hs : _scale (zoom b anchor (zoom a anchor v))
               == _scale (zoom (a + b) anchor v)).
  { rewrite !zoom_scale.
    replace (- (a + b))%Z with (- a + - b)%Z by lia.
    rewrite (clamp_proper _ _ (Qmult_comp _ _ (Qeq_refl (_scale v)) _ _
                                 (growth_plus (- a) (- b)))).
    apply clamp_twice; [exact Hv|].
    pose proof (growth_pos (- a)). pose proof (growth_pos (- b)).
    destruct Hdir as [[Ha Hb] | [Ha Hb]].
    - left. split; (split; [apply growth_pos | apply growth_shrinks; lia]).
    - right. split; apply growth_grows; lia. }
  split; [exact Hs|].
  apply (offsets_agree v _ _ anchor).
  - rewrite anchor_time_kept. apply anchor_time_kept.
  - apply anchor_time_kept.
  - exact Hs.
Qed.

Lemma zoom_same_direction_composes_witness :
  MinScale <= _scale fresh_view <= MaxScale
  /\ ((0 <= 3 /\ 0 <= 200)%Z \/ (3 <= 0 /\ 200 <= 0)%Z)
  /\ _scale (zoom 200 365 (zoom 3 365 fresh_view)) == _scale (zoom (3 + 200) 365 fresh_view)
  /\ _offset (zoom 200 365 (zoom 3 365 fresh_view)) == _offset (zoom (3 + 200) 365 fresh_view).
Proof.
  assert (H : MinScale <= _scale fresh_view <= MaxScale)
    by (split; apply Qle_bool_iff; reflexivity).
  assert (D : (0 <= 3 /\ 0 <= 200)%Z \/ (3 <= 0 /\ 200 <= 0)%Z) by (left; lia).
  split; [exact H|]. split; [exact D|].
  apply (zoom_same_direction_composes fresh_view 3 200 365 H D).
Defined.

(** X5. Direction of a zoom: with the scale within its bounds, non-negative
    steps never enlarge the scale and non-positive steps never reduce it. *)
Theorem zoom_direction (v : state) (steps anchor : Z) :
  MinScale <= _scale v <= MaxScale ->
  ((0 <= steps)%Z -> _scale (zoom steps anchor v) <= _scale v)
  /\ ((steps <= 0)%Z -> _scale v <= _scale (zoom steps anchor v)).
Proof.
  intros [Hlo Hhi]. rewrite zoom_scale.
  pose proof (growth_pos (- steps)) as Hf0.
  assert (Hmn : 0 < MinScale) by reflexivity.
  split; intro Hst.
  - pose proof (growth_shrinks (- steps) ltac:(lia)) as Hf1.
    set (f := (3 / 2) ^ (- steps)) in *. clearbody f.
    destruct (clamp_spec (_scale v * f)) as [[A1 A2] | [[A1 A2] | [A1 A2]]];
      rewrite A2; nra.
  - pose proof (growth_grows (- steps) ltac:(lia)) as Hf1.
    set (f := (3 / 2) ^ (- steps)) in *. clearbody f.
    destruct (clamp_spec (_scale v * f)) as [[A1 A2] | [[A1 A2] | [A1 A2]]];
      rewrite A2; nra.
Qed.

Lemma zoom_direction_witness :
  MinScale <= _scale fresh_view <= MaxScale
  /\ ((0 <= 2)%Z -> _scale (zoom 2 365 fresh_view) <= _scale fresh_view)
  /\ ((2 <= 0)%Z -> _scale fresh_view <= _scale (zoom 2 365 fresh_view)).
Proof.
  assert (H : MinScale <= _scale fresh_view <= MaxScale)
    by (split; apply Qle_bool_iff; reflexivity).
  split; [exact H | apply (zoom_direction fresh_view 2 365 H)].
Defined.



(** X7. A drag does not depend on its path: a move with the left button
    held leaves the state that the same move would have left without any
    earlier move, whatever buttons that earlier move had. *)
Theorem drag_path_independent (v : state) (b1 b2 : Z) (p1 p2 : Z * Z) :
  Z.land b2 LeftButton <> 0%Z ->
  mouseMoveEvent b2 p2 (mouseMoveEvent b1 p1 v) = mouseMoveEvent b2 p2 v.
Proof.
  intro Hb. unfold mouseMoveEvent. apply Z.eqb_neq in Hb. rewrite Hb. cbn [negb].
  destruct (negb (Z.land b1 LeftButton =? 0)%Z); reflexivity.
Qed.

Lemma drag_path_independent_witness :
  Z.land 1 LeftButton <> 0%Z
  /\ mouseMoveEvent 1 (90, 3)%Z
       (mouseMoveEvent 1 (500, 7)%Z (mousePressEvent (100, 10)%Z fresh_view))
     = mouseMoveEvent 1 (90, 3)%Z (mousePressEvent (100, 10)%Z fresh_view).
Proof.
  split; [discriminate|].
  apply (drag_path_independent (mousePressEvent (100, 10)%Z fresh_view) 1 1
           (500, 7)%Z (90, 3)%Z).
  discriminate.
Defined.

(** X8. From construction on, the ruler's assertions hold: in every state
    reached from the constructor by any sequence of events the scale lies
    within its bounds, and [paint_ruler] neither fails an assertion nor
    indexes outside [SIPrefixes]. *)
Theorem reachable_states_keep_assertions (w : Z) (indeterminate : Q)
    (es : list event) (fuel : nat) (text_height : Z) :
  let v := run (SigViewport_new w indeterminate) es in
  MinScale <= _scale v <= MaxScale
  /\ paint_ruler fuel text_height v <> AssertionFailed
  /\ paint_ruler fuel text_height v <> BadIndex.
Proof.
  intro v.
  assert (Hv : scale_ok v).
  { apply run_scale_ok. split; apply Qle_bool_iff; reflexivity. }
  split; [exact Hv|].
  pose proof (prefix_range v Hv) as Hp.
  unfold paint_ruler.
  replace (0 <=? prefix v)%Z with true by (symmetry; apply Z.leb_le; lia).
  replace (prefix v <? countof SIPrefixes)%Z with true
    by (symmetry; apply Z.ltb_lt; lia).
  cbn [negb].
  destruct (tick_loop fuel v (first_division v)) as [ks|].
  - destruct (draw_ticks_in_table v text_height ks Hv) as [ds ->].
    split; discriminate.
  - split; discriminate.
Qed.

End ZoomPan.

(** ** The ticks of the ruler *)

Module Ticks.


Lemma nth_error_divisions_from (n : nat) :
  forall d i d', nth_error (divisions_from d n) i = Some d' -> d' = (d + Z.of_nat i)%Z.
Proof.
  induction n as [|n IH]; intros d i d' H; cbn [divisions_from] in H.
  - destruct i; discriminate H.
  - destruct i as [|i]; cbn [nth_error] in H.
    + injection H as <-. lia.
    + apply IH in H. lia.
Qed.

Lemma length_divisions_from (n : nat) : forall d, List.length (divisions_from d n) = n.
Proof. induction n as [|n IH]; intro d; simpl; [reflexivity | now rewrite IH]. Qed.


Section Positive_scale.

Variable v : state.
Hypothesis Hs : 0 < _scale v.






End Positive_scale.



End Ticks.

(** ** The tick period and the labels *)

Module Periods.

Lemma tick_period_le_5 (v : state) : tick_period v <= 5 * order_decimal v.
Proof.
  pose proof (order_decimal_pos v).
  destruct (tick_period_cases v) as [[E _] | [[E _] | [E _]]]; rewrite E; lra.
Qed.

Lemma order_decimal_neq_0 (v : state) : ~ order_decimal v == 0.
Proof. pose proof (order_decimal_pos v). lra. Qed.

(** X13. The major tick period in pixels at the current scale,
    [tick_period / _scale], is always more than 40, and it is the 80 of
    [MinSpacing] or more exactly when [min_period] is at most five times its
    decade. *)
Theorem major_tick_spacing (v : state) :
  0 < _scale v ->
  40 < tick_period v / _scale v
  /\ (min_period v <= 5 * order_decimal v <-> 80 <= tick_period v / _scale v).
Proof.
  intro Hs. split.
  - apply Qlt_shift_div_l; [exact Hs|].
    pose proof (tick_period_over_half v Hs) as H. unfold min_period, MinSpacing in H.
    lra.
  - split; intro H.
    + apply Qle_shift_div_l; [exact Hs|].
      assert (Hm : min_period v <= tick_period v).
      { pose proof (order_decimal_pos v).
        destruct (tick_period_cases v) as [[E Hc] | [[E Hc] | [E Hc]]]; rewrite E; lra. }
      unfold min_period, MinSpacing in Hm. lra.
    + pose proof (tick_period_le_5 v) as H5.
      assert (Hm : 80 * _scale v <= tick_period v).
      { apply (Qmult_le_compat_r _ _ (_scale v)) in H; [|lra].
        assert (E : tick_period v / _scale v * _scale v == tick_period v)
          by (field; exact (scale_neq_0 v Hs)).
        rewrite E in H. exact H. }
      unfold min_period, MinSpacing. lra.
Qed.

Lemma major_tick_spacing_witness :
  0 < _scale fresh_view
  /\ 40 < tick_period fresh_view / _scale fresh_view
  /\ (min_period fresh_view <= 5 * order_decimal fresh_view
      <-> 80 <= tick_period fresh_view / _scale fresh_view).
Proof.
  split; [reflexivity | apply (major_tick_spacing fresh_view); reflexivity].
Defined.

(** X14. The unit loop picks the least candidate that is long enough: if
    any of 1, 2, 5 times the decade reaches [min_period], then
    [tick_period] reaches it too and is no longer than that candidate. *)
Theorem tick_period_least_candidate (v : state) (m : Z) :
  In m ScaleUnits ->
  min_period v <= inject_Z m * order_decimal v ->
  min_period v <= tick_period v /\ tick_period v <= inject_Z m * order_decimal v.
Proof.
  intros Hin Hm. pose proof (order_decimal_pos v) as Hod.
  unfold ScaleUnits in Hin. cbn [In] in Hin.
  destruct Hin as [<- | [<- | [<- | []]]];
    [change (inject_Z 1) with 1 in * | change (inject_Z 2) with 2 in *
     | change (inject_Z 5) with 5 in *];
    destruct (tick_period_cases v) as [[E Hc] | [[E Hc] | [E Hc]]];
    rewrite E; split; lra.
Qed.

Lemma tick_period_least_candidate_witness :
  In 5%Z ScaleUnits
  /\ min_period (set_transform fresh_view (1 # 40) 0)
     <= inject_Z 5 * order_decimal (set_transform fresh_view (1 # 40) 0)
  /\ min_period (set_transform fresh_view (1 # 40) 0)
     <= tick_period (set_transform fresh_view (1 # 40) 0)
  /\ tick_period (set_transform fresh_view (1 # 40) 0)
     <= inject_Z 5 * order_decimal (set_transform fresh_view (1 # 40) 0).
Proof.
  assert (Hin : In 5%Z ScaleUnits) by (simpl; tauto).
  assert (Hm : min_period (set_transform fresh_view (1 # 40) 0)
               <= inject_Z 5 * order_decimal (set_transform fresh_view (1 # 40) 0))
    by (apply Qle_bool_iff; reflexivity).
  split; [exact Hin|]. split; [exact Hm|].
  apply (tick_period_least_candidate (set_transform fresh_view (1 # 40) 0) 5 Hin Hm).
Defined.





(** X17. What a label says against the tick's time: with the scale within
    its bounds, the printed number times the unit of the printed SI prefix,
    [10^(FirstSIPrefixPower + 3 * prefix)], is the time divided by [10^r],
    where [r = (order - FirstSIPrefixPower) % 3] is 0, 1 or 2.  The label
    reads as the time when [r = 0]. *)
Theorem label_against_time (v : state) (tm : Q) :
  MinScale <= _scale v <= MaxScale ->
  let r := Z.rem (order v - FirstSIPrefixPower) 3 in
  (0 <= r <= 2)%Z
  /\ tm / order_decimal v * 10 ^ (FirstSIPrefixPower + 3 * prefix v) * 10 ^ r == tm.
Proof.
  intros Hv r. pose proof (order_range v Hv) as Ho.
  pose proof (Z.quot_rem' (order v - FirstSIPrefixPower) 3) as E.
  fold (prefix v) in E. fold r in E.
  assert (Hr : (0 <= r < 3)%Z)
    by (apply Z.rem_bound_pos; unfold FirstSIPrefixPower; lia).
  split; [lia|].
  assert (Ep : 10 ^ (FirstSIPrefixPower + 3 * prefix v) * 10 ^ r == order_decimal v).
  { rewrite <- Qpower_plus by discriminate. unfold order_decimal, pow.
    replace (FirstSIPrefixPower + 3 * prefix v + r)%Z with (order v) by lia.
    reflexivity. }
  rewrite <- Qmult_assoc, Ep. field. apply order_decimal_neq_0.
Qed.

Lemma label_against_time_witness :
  MinScale <= _scale fresh_view <= MaxScale
  /\ let r := Z.rem (order fresh_view - FirstSIPrefixPower) 3 in
     (0 <= r <= 2)%Z
     /\ (5 # 100000) / order_decimal fresh_view
        * 10 ^ (FirstSIPrefixPower + 3 * prefix fresh_view) * 10 ^ r == 5 # 100000.
Proof.
  assert (H : MinScale <= _scale fresh_view <= MaxScale)
    by (split; apply Qle_bool_iff; reflexivity).
  split; [exact H | apply (label_against_time fresh_view (5 # 100000) H)].
Defined.

End Periods.

(** ** Painting the signals *)

Module Paint.

Lemma paint_signals_rows {Sig : Type} (v : state) (ss : list Sig) :
  forall offset,
  exists calls,
    paint_signals v offset (map Some ss) = Some calls
    /\ forall i s, nth_error ss i = Some s ->
         nth_error calls i
         = Some (PaintSignal s
                   (mkRect LabelMarginWidth (offset + SignalHeight * Z.of_nat i)
                           (width v - LabelMarginWidth) SignalHeight)
                   (_scale v) (_offset v)).
Proof.
  induction ss as [|s0 ss IH]; intro offset; cbn [map paint_signals].
  - exists []. split; [reflexivity|]. intros [|i] s H; discriminate H.
  - destruct (IH (offset + SignalHeight)%Z) as [calls [-> Hnth]].
    cbn [option_map]. eexists. split; [reflexivity|].
    intros [|i] s H; cbn [nth_error] in *.
    + injection H as <-. do 3 f_equal. lia.
    + rewrite (Hnth i s H). do 3 f_equal. lia.
Qed.

Lemma paint_labels_rows {Sig : Type} (ss : list Sig) :
  forall offset,
  exists calls,
    paint_labels offset (map Some ss) = Some calls
    /\ forall i s, nth_error ss i = Some s ->
         nth_error calls i
         = Some (PaintLabel s
                   (mkRect 0 (offset + SignalHeight * Z.of_nat i)
                           LabelMarginWidth SignalHeight)).
Proof.
  induction ss as [|s0 ss IH]; intro offset; cbn [map paint_labels].
  - exists []. split; [reflexivity|]. intros [|i] s H; discriminate H.
  - destruct (IH (offset + SignalHeight)%Z) as [calls [-> Hnth]].
    cbn [option_map]. eexists. split; [reflexivity|].
    intros [|i] s H; cbn [nth_error] in *.
    + injection H as <-. do 3 f_equal. lia.
    + rewrite (Hnth i s H). do 3 f_equal. lia.
Qed.

(** X18. Rows of the widget: with no null signal, [paintEvent] paints the
    i-th signal in the rectangle at x = 70, y = 30 + 50 i, of width
    [width - 70] and height 50, with the current scale and offset, and its
    label in the rectangle at x = 0, same y, 70 wide and 50 high; then it
    paints the ruler. *)
Theorem paintEvent_rows {Sig : Type} (v : state) (ss : list Sig)
    (fuel : nat) (text_height : Z) :
  exists signal_calls label_calls,
    paintEvent fuel text_height (map Some ss) v
    = Some (signal_calls, label_calls, paint_ruler fuel text_height v)
    /\ forall i s, nth_error ss i = Some s ->
         nth_error signal_calls i
         = Some (PaintSignal s (mkRect 70 (30 + 50 * Z.of_nat i) (width v - 70) 50)
                             (_scale v) (_offset v))
         /\ nth_error label_calls i
            = Some (PaintLabel s (mkRect 0 (30 + 50 * Z.of_nat i) 70 50)).
Proof.
  destruct (paint_signals_rows v ss RulerHeight) as [sc [Hs Hsn]].
  destruct (paint_labels_rows ss RulerHeight) as [lc [Hl Hln]].
  exists sc, lc. unfold paintEvent. rewrite Hs, Hl. split; [reflexivity|].
  intros i s H. split; [apply (Hsn i s H) | apply (Hln i s H)].
Qed.

(** X19. A null signal stops the painting: if any entry of the signal list
    is a null pointer, [assert(s)] fails, [paintEvent] does not complete and
    the ruler is not painted. *)
Theorem paintEvent_null_signal {Sig : Type} (v : state) (sigs : list (option Sig))
    (fuel : nat) (text_height : Z) :
  In None sigs ->
  paintEvent fuel text_height sigs v = None.
Proof.
  intro Hin. unfold paintEvent.
  assert (H : forall offset, paint_signals v offset sigs = None).
  { induction sigs as [|[s|] sigs IH]; intro offset.
    - destruct Hin.
    - destruct Hin as [Hd | Hin]; [discriminate Hd|].
      cbn [paint_signals]. rewrite (IH Hin). reflexivity.
    - reflexivity. }
  rewrite H. reflexivity.
Qed.

Lemma paintEvent_null_signal_witness :
  In None [Some 1%nat; None; Some 2%nat]
  /\ paintEvent 1000 12 [Some 1%nat; None; Some 2%nat] fresh_view = None.
Proof.
  assert (H : In None [Some 1%nat; None; Some 2%nat]) by (simpl; tauto).
  split; [exact H | apply (paintEvent_null_signal fresh_view _ 1000 12 H)].
Defined.

End Paint.



